(** * DroneSpec: acquisition pipeline, result ledger and ground-station sync

    A shallow embedding of the coordination logic of the DroneSpec
    repository:

    - [run_DroneSpec.py]: the settings, the exposure computation, the
      fit-job worker [analyse_spec], the ledger consumer [listener] and
      the acquisition loop [run];
    - [ifit/pispec.py]: the [PiSpec] sync client and its control marker;
    - [DroneSpecUI.py]: the start/stop button, the sync worker
      ([SyncWorker.run], [SyncWorker._run]) and the log mirror of the
      monitor ([MainWindow.update_log]).

    Part I holds the definitions, one module per source unit; Part II
    holds the statements proved about them, and Part III further
    properties of the code. *)

From Stdlib Require Import QArith Qabs Lqa.
From stdpp Require Import base option list strings gmap sorting.

(* ===================================================================== *)
(** * Part I: definitions                                                 *)
(* ===================================================================== *)

(** ** Python values shared by the three scripts *)

(** The exceptions that the modelled code can raise or let through. *)
Inductive exn :=
  | ValueError          (* min() of an empty sequence, np.max of nothing *)
  | IndexError          (* [0][0] on an empty np.where result, res[k]    *)
  | KeyboardInterrupt   (* operator interrupt                            *)
  | FitError            (* read_spectrum / fit_spectrum / utm failure    *)
  | CommandFailed       (* SSHClient.run_command failed                  *)
  | CopyFailed.         (* SSHClient.copy_remote_file failed             *)

Inductive result (A : Type) :=
  | Ok (a : A)
  | Raise (e : exn).
Arguments Ok {A} a.
Arguments Raise {A} e.

Module PyStr.

(** [str.isspace] on the code points below 256. *)
Definition isspace (a : Ascii.ascii) : bool :=
  let n := Ascii.nat_of_ascii a in
  (((9 <=? n) && (n <=? 13)) || ((28 <=? n) && (n <=? 32))
   || (n =? 133) || (n =? 160))%nat.

Fixpoint lstrip (s : string) : string :=
  match s with
  | EmptyString => EmptyString
  | String a s' => if isspace a then lstrip s' else s
  end.

Fixpoint rstrip (s : string) : string :=
  match s with
  | EmptyString => EmptyString
  | String a s' =>
      match rstrip s' with
      | EmptyString => if isspace a then EmptyString else String a EmptyString
      | r => String a r
      end
  end.

(** [s.strip()] *)
Definition strip (s : string) : string := lstrip (rstrip s).

(** [sep.join(parts)] *)
Fixpoint join (sep : string) (parts : list string) : string :=
  match parts with
  | [] => EmptyString
  | [p] => p
  | p :: ps => String.append p (String.append sep (join sep ps))
  end.

End PyStr.

(* --------------------------------------------------------------------- *)
(** ** run_DroneSpec.py, lines 216-228: the exposure computation          *)
(* --------------------------------------------------------------------- *)

Module Exposure.

(** A numpy float64 with its three special values.  Finite values are
    kept as exact rationals: rounding is not modelled, and neither is
    the sign of zero. *)
Inductive npfloat :=
  | Fin (q : Q)
  | PInf
  | NInf
  | NaN.

Definition of_sign (c : comparison) : npfloat :=
  match c with Gt => PInf | Lt => NInf | Eq => NaN end.

Definition sign (x : npfloat) : comparison :=
  match x with
  | Fin q => (q ?= 0)%Q
  | PInf => Gt
  | NInf => Lt
  | NaN => Eq
  end.

Definition sign_mul (a b : comparison) : comparison :=
  match a, b with
  | Eq, _ | _, Eq => Eq
  | Gt, Gt | Lt, Lt => Gt
  | _, _ => Lt
  end.

(** [a / b]: a zero divisor does not raise, it gives an infinity (or
    NaN for 0/0) and numpy only prints a RuntimeWarning. *)
Definition fdiv (a b : npfloat) : npfloat :=
  match a, b with
  | NaN, _ | _, NaN => NaN
  | Fin x, Fin y =>
      if Qeq_bool y 0 then of_sign (x ?= 0)%Q else Fin (x / y)
  | Fin _, (PInf | NInf) => Fin 0
  | (PInf | NInf), (PInf | NInf) => NaN
  | (PInf | NInf), Fin y =>
      if Qeq_bool y 0 then a else of_sign (sign_mul (sign a) (y ?= 0)%Q)
  end.

(** [a * b] *)
Definition fmul (a b : npfloat) : npfloat :=
  match a, b with
  | NaN, _ | _, NaN => NaN
  | Fin x, Fin y => Fin (x * y)
  | _, _ => of_sign (sign_mul (sign a) (sign b))
  end.

(** [a - b] *)
Definition fsub (a b : npfloat) : npfloat :=
  match a, b with
  | NaN, _ | _, NaN => NaN
  | Fin x, Fin y => Fin (x - y)
  | PInf, PInf | NInf, NInf => NaN
  | PInf, _ | _, NInf => PInf
  | NInf, _ | _, PInf => NInf
  end.

(** [(d**2)**0.5], the square root of the square. *)
Definition sqrt_sq (d : npfloat) : npfloat :=
  match d with
  | Fin q => Fin (Qabs q)
  | PInf | NInf => PInf
  | NaN => NaN
  end.

(** [a < b]; every comparison with NaN is false. *)
Definition flt (a b : npfloat) : bool :=
  match a, b with
  | NaN, _ | _, NaN => false
  | Fin x, Fin y => negb (Qle_bool y x)
  | NInf, NInf | PInf, _ => false
  | NInf, _ => true
  | Fin _, PInf => true
  | Fin _, NInf => false
  end.

(** [a == b]; NaN is not equal to itself. *)
Definition feq (a b : npfloat) : bool :=
  match a, b with
  | Fin x, Fin y => Qeq_bool x y
  | PInf, PInf | NInf, NInf => true
  | _, _ => false
  end.

(** The builtin [min(xs)]: keeps the first item and replaces it by a
    later one only when that one compares smaller. *)
Definition py_min (xs : list npfloat) : result npfloat :=
  match xs with
  | [] => Raise ValueError
  | x :: rest => Ok (fold_left (fun m y => if flt y m then y else m) rest x)
  end.

(** [np.where(mask)[0][0]]: the first index where the mask holds. *)
Fixpoint first_true (mask : list bool) : result nat :=
  match mask with
  | [] => Raise IndexError
  | true :: _ => Ok 0%nat
  | false :: rest =>
      match first_true rest with
      | Ok i => Ok (S i)
      | Raise e => Raise e
      end
  end.

(** [np.arange(start, stop, step)] on integers with a positive step. *)
Definition arange (start stop step : Z) : list Z :=
  (fun k => start + k * step)%Z <$> seqZ 0 ((stop - start + step - 1) / step)%Z.

Definition scale (target_int max_int : npfloat) : npfloat :=
  fdiv target_int max_int.

Definition scaled_time (integration_time : Z) (target_int max_int : npfloat)
  : npfloat :=
  fmul (Fin (inject_Z integration_time)) (scale target_int max_int).

Definition diff (int_times : list Z) (int_time : npfloat) : list npfloat :=
  (fun t => sqrt_sq (fsub (Fin (inject_Z t)) int_time)) <$> int_times.

(** Lines 216-228 of [run]: from the ladder [int_times], the target,
    the peak [max_int] of the spectrum just read and the current
    integration time, the integration time to use next. *)
Definition new_int_time (int_times : list Z) (target_int max_int : npfloat)
    (integration_time : Z) : result Z :=
  let int_time := scaled_time integration_time target_int max_int in
  let d := diff int_times int_time in
  match py_min d with
  | Raise e => Raise e
  | Ok m =>
      match first_true ((fun x => feq x m) <$> d) with
      | Raise e => Raise e
      | Ok idx =>
          match int_times !! idx with
          | Some t => Ok t
          | None => Raise IndexError
          end
      end
  end.

End Exposure.

(* --------------------------------------------------------------------- *)
(** ** run_DroneSpec.py: [analyse_spec] and [listener]                    *)
(* --------------------------------------------------------------------- *)

Module Ledger.

(** The values a result row is made of. *)
Inductive pyval :=
  | PStr (s : string)
  | PInt (z : Z)
  | PFloat (q : Q).

(** What travels on the multiprocessing queue [q]: a result list put by
    a fit job, or the string ['kill'] put by [run]. *)
Inductive qitem :=
  | Res (res : list pyval)
  | Kill.

(** [info] as returned by [read_spectrum]. *)
Record SpectrumInfo := {
  timestamp : string;
  lat : Q;
  lon : Q;
  alt : Q;
  integration_time : Q
}.

Record Spectrum := { x : list Q; y : list Q; info : SpectrumInfo }.

(** The fit result: [fit.params['SO2']] and [fit.spec]. *)
Record Fit := { fit_val : Q; fit_err : Q; spec : list Q }.

(** [np.max] of a one-dimensional array. *)
Definition np_max (xs : list Q) : result Q :=
  match xs with
  | [] => Raise ValueError
  | x0 :: rest => Ok (fold_left (fun m v => if Qle_bool m v then v else m) rest x0)
  end.

Definition conv : Q := 2540000000000000 # 1.

(** What one run of [analyse_spec] leaves behind: the audit file it
    wrote (its text), the items it put on the queue, and the exception
    that ended the process, if any. *)
Record JobOutcome := {
  meas_file : option string;
  puts : list qitem;
  raised : option exn
}.

Definition job_failed (e : exn) : JobOutcome :=
  {| meas_file := None; puts := []; raised := Some e |}.

Inductive fileop :=
  | Open
  | WriteLine (line : string)
  | Flush
  | Close.

(** How a run of [listener] ends: it returned after ['kill'], it is
    blocked in [q.get()] on an empty queue, or an exception ended it. *)
Inductive lstatus :=
  | Returned
  | Waiting
  | Died (e : exn).

Record ListenerRun := {
  status : lstatus;
  fops : list fileop;        (* what was done to [save_fname], in order *)
  stdout : list string;      (* the lines printed *)
  unread : list qitem        (* what is left on the queue *)
}.

(** The lines of [save_fname] that reached the disk: written lines sit
    in the buffer of the file object until a flush or the close. *)
Fixpoint on_disk_go (ops : list fileop) (disk buffer : list string)
  : list string :=
  match ops with
  | [] => disk
  | Open :: ops' => on_disk_go ops' [] []
  | WriteLine l :: ops' => on_disk_go ops' disk (buffer ++ [l])
  | (Flush | Close) :: ops' => on_disk_go ops' (disk ++ buffer) []
  end.

Definition on_disk (ops : list fileop) : list string := on_disk_go ops [] [].

(** The lines handed to [w.write], in order. *)
Definition written (ops : list fileop) : list string :=
  omap (fun o => match o with WriteLine l => Some l | _ => None end) ops.

Definition h : string :=
  String.append
    "Time,Lat,Lon,Alt,X,Y,ZoneNum,ZoneLett,SO2_SCD_mol,SO2_err_mol,"
    "SO2_SCD_ppmm,SO2_err_ppmm,IntegrationTime,Intensity".

Definition tab : string := String (Ascii.ascii_of_nat 9) EmptyString.

Section Formatting.

(** [f'{r}'] (and [str(r)]) for a value of a result row. *)
Variable fmt : pyval -> string.

(** The external collaborators of a fit job. *)
Variable read_spectrum : nat -> result Spectrum.
Variable fit_spectrum : list Q * list Q -> result Fit.
Variable from_latlon : Q -> Q -> result (Q * Q * Z * string).

(** [analyse_spec(spec_fname, analyser, fpath, q)] for the spectrum
    file of sequence number [i]. *)
Definition analyse_spec (i : nat) : JobOutcome :=
  match read_spectrum i with
  | Raise e => job_failed e
  | Ok s =>
      match fit_spectrum (x s, y s) with
      | Raise e => job_failed e
      | Ok fit =>
          match from_latlon (lat (info s)) (lon (info s)) with
          | Raise e => job_failed e
          | Ok (utm0, utm1, utm2, utm3) =>
              match np_max (spec fit) with
              | Raise e => job_failed e
              | Ok peak =>
                  let res :=
                    [PStr (timestamp (info s)); PFloat (lat (info s));
                     PFloat (lon (info s)); PFloat (alt (info s));
                     PFloat utm0; PFloat utm1; PInt utm2; PStr utm3;
                     PFloat (fit_val fit); PFloat (fit_err fit);
                     PFloat (fit_val fit / conv);
                     PFloat (fit_err fit / conv);
                     PFloat (integration_time (info s)); PFloat peak] in
                  {| meas_file :=
                       Some (fold_left
                               (fun w r => String.append w
                                             (String.append (fmt r) ","))
                               res EmptyString);
                     puts := [Res res];
                     raised := None |}
              end
          end
      end
  end.

(** The queue traffic of the fit jobs, listed in the order in which
    they finish. *)
Definition channel_of (finished : list nat) : list qitem :=
  flat_map (fun i => puts (analyse_spec i)) finished.

(** The row text built in lines 69-71. *)
Definition row (r0 : pyval) (rest : list pyval) : string :=
  fold_left (fun msg r => String.append msg (String.append "," (fmt r)))
            rest (fmt r0).

(** The line printed in lines 74-75. *)
Definition console_line (res : list pyval) : option string :=
  r0 ← res !! 0%nat; r1 ← res !! 1%nat; r2 ← res !! 2%nat;
  r3 ← res !! 3%nat; r10 ← res !! 10%nat; r11 ← res !! 11%nat;
  Some (PyStr.join tab (fmt <$> [r0; r1; r2; r3; r10; r11])).

(** The [while True] loop of [listener], run on the items that the
    queue delivers, in order. *)
Fixpoint listen (q : list qitem) : ListenerRun :=
  match q with
  | [] => {| status := Waiting; fops := []; stdout := []; unread := [] |}
  | Kill :: q' =>
      {| status := Returned; fops := [Close]; stdout := []; unread := q' |}
  | Res [] :: q' =>
      {| status := Died IndexError; fops := [Close]; stdout := [];
         unread := q' |}
  | Res (r0 :: rest) :: q' =>
      let msg := row r0 rest in
      match console_line (r0 :: rest) with
      | None =>
          {| status := Died IndexError;
             fops := [WriteLine msg; Flush; Close]; stdout := [];
             unread := q' |}
      | Some line =>
          let run := listen q' in
          {| status := status run;
             fops := WriteLine msg :: Flush :: fops run;
             stdout := line :: stdout run;
             unread := unread run |}
      end
  end.

(** [listener(q, save_fname)] *)
Definition listener (q : list qitem) : ListenerRun :=
  let run := listen q in
  {| status := status run;
     fops := Open :: WriteLine h :: fops run;
     stdout := PyStr.join tab ["Time"; "Lat"; "Lon"; "Alt";
                               "SO2_SCD_ppmm"; "SO2_err_ppmm"]
               :: stdout run;
     unread := unread run |}.

(** The text of the row written for a result list. *)
Definition row_of (res : list pyval) : string :=
  match res with
  | [] => EmptyString
  | r0 :: rest => row r0 rest
  end.

(** What the loop does to the file for one result list. *)
Definition row_ops (res : list pyval) : list fileop :=
  [WriteLine (row_of res); Flush].

End Formatting.

End Ledger.

(* --------------------------------------------------------------------- *)
(** ** run_DroneSpec.py, lines 186-264: the acquisition loop of [run]     *)
(* --------------------------------------------------------------------- *)

Module Acquisition.

Import Exposure.

(** What [run] does to the outside, in order.  A fit process is named
    by the sequence number [i] of the spectrum it was created for. *)
Inductive action :=
  | StartListener                 (* listen.start()                    *)
  | Sleep                         (* time.sleep(1)                     *)
  | GetSpectrum (i : nat)         (* spectro.get_spectrum(spec_fname)  *)
  | UpdateIntegrationTime (t : Z) (* spectro.update_integration_time   *)
  | Start (i : nat)               (* p.start()                         *)
  | TooManyProcesses              (* logger.warning('Too many ...')    *)
  | PutKill                       (* q.put('kill')                     *)
  | ProgramEnded                  (* logger.info('Program ended')      *)
  | JoinListener                  (* listen.join()                     *)
  | Join (i : nat).               (* p.join()                          *)

(** Where in one pass of the [while True] loop a KeyboardInterrupt is
    raised: just before the statements named. *)
Inductive point :=
  | AtPoll          (* lines 206-208: the control-file test, the sleep *)
  | AtGetSpectrum   (* line 214                                        *)
  | AtExposure      (* lines 217-232                                   *)
  | AtPrune         (* line 235                                        *)
  | AtStart         (* lines 237-251                                   *)
  | AtIncrement.    (* line 253                                        *)

Global Instance point_eq_dec : EqDecision point.
Proof. solve_decision. Defined.

(** What the surroundings decide during one pass of the loop. *)
Record Tick := {
  control_on : bool;           (* os.path.isfile(control_file)         *)
  max_int : npfloat;           (* np.max(y) of the spectrum read       *)
  is_alive : nat -> bool;      (* p.is_alive() when the list is pruned *)
  interrupt : option point     (* a KeyboardInterrupt, and where       *)
}.

Record Config := {
  target_int : npfloat;        (* config['TargetIntensity']            *)
  int_times : list Z           (* the np.arange ladder                 *)
}.

Record State := {
  i : nat;                     (* the counter [i]                      *)
  integration_time : Z;        (* spectro.integration_time             *)
  processes : list nat;        (* the list [processes]                 *)
  trace : list action
}.

Definition emit (a : action) (st : State) : State :=
  {| i := i st; integration_time := integration_time st;
     processes := processes st; trace := trace st ++ [a] |}.

Definition set_processes (ps : list nat) (st : State) : State :=
  {| i := i st; integration_time := integration_time st;
     processes := ps; trace := trace st |}.

(** Modelled from the spec: [Spectrometer.update_integration_time] is in
    [ifit.spectrometers], which is not among the sources; the spec has the
    loop "reconfigure hardware if the chosen setting changed", taken here
    as setting [spectro.integration_time] to the value passed. *)
Definition set_integration_time (t : Z) (st : State) : State :=
  {| i := i st; integration_time := t;
     processes := processes st; trace := trace st |}.

Definition increment (st : State) : State :=
  {| i := S (i st); integration_time := integration_time st;
     processes := processes st; trace := trace st |}.

(** How one pass of the loop ends. *)
Inductive pass :=
  | Continue (st : State)           (* next pass                        *)
  | Break (st : State)              (* [except KeyboardInterrupt] ran   *)
  | Abort (e : exn) (st : State).   (* an exception leaves [run]        *)

(** Lines 255-257. *)
Definition on_keyboard_interrupt (st : State) : pass :=
  Break (emit PutKill st).

Definition hit (tk : Tick) (p : point) : bool :=
  bool_decide (interrupt tk = Some p).

(** Lines 234-251: prune the finished processes, then start a new one
    or log the warning. *)
Definition prune (tk : Tick) (st : State) : State :=
  set_processes (filter (fun p => is_alive tk p = true) (processes st)) st.

Definition submit_job (st : State) : State :=
  if (length (processes st) <? 3)%nat
  then emit (Start (i st)) (set_processes (processes st ++ [i st]) st)
  else emit TooManyProcesses st.

(** Lines 210-257: the [try] block and its handler. *)
Definition try_block (cfg : Config) (tk : Tick) (st : State) : pass :=
  if hit tk AtGetSpectrum then on_keyboard_interrupt st else
  let st := emit (GetSpectrum (i st)) st in
  if hit tk AtExposure then on_keyboard_interrupt st else
  match new_int_time (int_times cfg) (target_int cfg) (max_int tk)
                     (integration_time st) with
  | Raise e => Abort e st
  | Ok t =>
      let st :=
        if bool_decide (t ≠ integration_time st)
        then emit (UpdateIntegrationTime t) (set_integration_time t st)
        else st in
      if hit tk AtPrune then on_keyboard_interrupt st else
      let st := prune tk st in
      if hit tk AtStart then on_keyboard_interrupt st else
      let st := submit_job st in
      if hit tk AtIncrement then on_keyboard_interrupt st else
      Continue (increment st)
  end.

(** Lines 203-257: one pass of the [while True] loop. *)
Definition loop_pass (cfg : Config) (tk : Tick) (st : State) : pass :=
  if hit tk AtPoll then Abort KeyboardInterrupt st else
  if control_on tk then try_block cfg tk st
  else
    match interrupt tk with
    | Some _ => Abort KeyboardInterrupt st   (* raised in time.sleep(1) *)
    | None => Continue (emit Sleep st)
    end.

(** Lines 259-264. *)
Definition complete (st : State) : State :=
  fold_left (fun s p => emit (Join p) s) (processes st)
            (emit JoinListener (emit ProgramEnded st)).

(** How a run of [run] stands after the passes given. *)
Inductive outcome :=
  | Running (st : State)            (* still in the loop                *)
  | Ended (st : State)              (* [run] returned                   *)
  | Crashed (e : exn) (st : State). (* [run] was left by an exception   *)

Definition final (o : outcome) : State :=
  match o with Running st | Ended st | Crashed _ st => st end.

Fixpoint loop (cfg : Config) (ticks : list Tick) (st : State) : outcome :=
  match ticks with
  | [] => Running st
  | tk :: ticks' =>
      match loop_pass cfg tk st with
      | Continue st' => loop cfg ticks' st'
      | Break st' => Ended (complete st')
      | Abort e st' => Crashed e st'
      end
  end.

(** The state in which the loop is entered: counter at zero, no fit
    process, the listener started. *)
Definition initial (t0 : Z) : State :=
  {| i := 0; integration_time := t0; processes := [];
     trace := [StartListener] |}.

Definition run (cfg : Config) (t0 : Z) (ticks : list Tick) : outcome :=
  loop cfg ticks (initial t0).

Definition state_of (p : pass) : State :=
  match p with Continue st | Break st | Abort _ st => st end.

(** Modelled from the spec: [Spectrometer.get_spectrum] is in
    [ifit.spectrometers], which is not among the sources; by the spec each
    spectrum acquired is "archived to disk", here under the name
    [spec_fname] passed to it.  These are the spectrum files written so
    far; [run] never removes one. *)
Definition spectrum_files (tr : list action) : list nat :=
  omap (fun a => match a with GetSpectrum i => Some i | _ => None end) tr.

(** The fit processes started so far. *)
Definition started (tr : list action) : list nat :=
  omap (fun a => match a with Start i => Some i | _ => None end) tr.

End Acquisition.

(* --------------------------------------------------------------------- *)
(** ** ifit/pispec.py: the [PiSpec] sync client                           *)
(* --------------------------------------------------------------------- *)

Module PiSpec.

(** A file of the run folder [Results/{folder}], on either machine:
    directly in it, or in its [meas] subfolder. *)
Inductive path :=
  | InRun (name : string)
  | InMeas (name : string).

Definition so2_output : path := InRun "so2_output.csv".
Definition log_txt : path := InRun "log.txt".

(** The run folder of one machine.  A text file is the list of its
    lines, each without the newline that ends it. *)
Record Host := {
  run_dir : gmap string (list string);
  meas_dir : gmap string (list string)
}.

Definition read (h : Host) (p : path) : option (list string) :=
  match p with
  | InRun name => run_dir h !! name
  | InMeas name => meas_dir h !! name
  end.

Definition write (p : path) (f : list string) (h : Host) : Host :=
  match p with
  | InRun name => {| run_dir := <[name := f]> (run_dir h); meas_dir := meas_dir h |}
  | InMeas name => {| run_dir := run_dir h; meas_dir := <[name := f]> (meas_dir h) |}
  end.

(** The remote commands the client sends. *)
Inductive command :=
  | Tail (n : nat) (p : path)   (* tail -n {n} {rem_file}               *)
  | LsMeas                      (* ls .../{folder}/meas/meas*           *)
  | LsSpectra.                  (* ls .../{folder}/spectrum*            *)

Inductive call :=
  | RunCommand (c : command)
  | CopyRemoteFile (p : path).

(** The two machines and the link between them.  [faults] is consumed
    one entry per transport call: [true] makes that call fail; once it
    is used up every call goes through. *)
Record World := {
  folder : string;
  remote : Host;
  local : Host;
  faults : list bool;
  calls : list call
}.

Definition set_local (h : Host) (w : World) : World :=
  {| folder := folder w; remote := remote w; local := h;
     faults := faults w; calls := calls w |}.

Definition set_remote (h : Host) (w : World) : World :=
  {| folder := folder w; remote := h; local := local w;
     faults := faults w; calls := calls w |}.

(** Records the call and draws its fate from the schedule. *)
Definition dial (c : call) (w : World) : bool * World :=
  (default false (head (faults w)),
   {| folder := folder w; remote := remote w; local := local w;
      faults := tail (faults w); calls := calls w ++ [c] |}).

(** Computations that read and change the world and may raise. *)
Definition M (A : Type) : Type := World -> result A * World.

Definition ret {A} (a : A) : M A := fun w => (Ok a, w).

Definition bind {A B} (m : M A) (k : A -> M B) : M B :=
  fun w =>
    match m w with
    | (Ok a, w') => k a w'
    | (Raise e, w') => (Raise e, w')
    end.

(** [try: m  except Exception: handler] *)
Definition try_except {A} (m : M A) (handler : M A) : M A :=
  fun w =>
    match m w with
    | (Ok a, w') => (Ok a, w')
    | (Raise _, w') => handler w'
    end.

Definition get : M World := fun w => (Ok w, w).

Definition modify (f : World -> World) : M unit := fun w => (Ok tt, f w).

Notation "x <- m ;; k" := (bind m (fun x => k))
  (at level 100, m at next level, right associativity).
Notation "m ;;; k" := (bind m (fun _ => k))
  (at level 100, right associativity).

(** [for x in xs: body(x)] *)
Fixpoint for_each {A} (xs : list A) (body : A -> M unit) : M unit :=
  match xs with
  | [] => ret tt
  | x :: xs' => body x ;;; for_each xs' body
  end.

(** [for x in xs: acc = body(acc, x)], for a loop that builds up a value. *)
Fixpoint for_each_with {A B} (xs : list A) (acc : B) (body : B -> A -> M B)
  : M B :=
  match xs with
  | [] => ret acc
  | x :: xs' => acc' <- body acc x ;; for_each_with xs' acc' body
  end.

(** The last [n] lines: [tail -n n]. *)
Definition last_lines (n : nat) (f : list string) : list string :=
  drop (length f - n) f.

Definition sorted (names : list string) : list string :=
  merge_sort (fun a b => Is_true (String.leb a b)) names.

(** The names in a directory that a shell pattern [{pre}*] expands to. *)
Definition glob (pre : string) (d : gmap string (list string)) : list string :=
  sorted (filter (fun name => Is_true (String.prefix pre name))
                 (map_to_list d).*1).

Definition remote_root (w : World) : string :=
  String.append "/home/pi/drone/Results/" (folder w).

(** The output lines of a command that went through. *)
Definition stdout (c : command) (w : World) : list string :=
  match c with
  | Tail n p => last_lines n (default [] (read (remote w) p))
  | LsMeas =>
      (fun name => String.append (remote_root w) (String.append "/meas/" name))
        <$> glob "meas" (meas_dir (remote w))
  | LsSpectra =>
      (fun name => String.append (remote_root w) (String.append "/" name))
        <$> glob "spectrum" (run_dir (remote w))
  end.

(** [self.client.run_command(cmd)] and the reading of [output.stdout]. *)
Definition run_command (c : command) : M (list string) :=
  fun w =>
    let '(fault, w') := dial (RunCommand c) w in
    if fault then (Raise CommandFailed, w') else (Ok (stdout c w'), w').

(** [self.client.copy_remote_file(remote, local)]: both paths name the
    same file of the run folder, one on each machine. *)
Definition copy_remote_file (p : path) : M unit :=
  fun w =>
    let '(fault, w') := dial (CopyRemoteFile p) w in
    if fault then (Raise CopyFailed, w')
    else
      match read (remote w') p with
      | None => (Raise CopyFailed, w')
      | Some f => (Ok tt, set_local (write p f (local w')) w')
      end.

Definition slash : Ascii.ascii := Ascii.ascii_of_nat 47.

(** [os.path.split(f)[1]]: what follows the last slash. *)
Fixpoint has_slash (s : string) : bool :=
  match s with
  | EmptyString => false
  | String a s' => bool_decide (a = slash) || has_slash s'
  end.

Fixpoint basename (s : string) : string :=
  match s with
  | EmptyString => EmptyString
  | String a s' =>
      if has_slash s' then basename s'
      else if bool_decide (a = slash) then s' else s
  end.

(** [copy_so2_data] *)
Definition copy_so2_data : M unit := copy_remote_file so2_output.

(** Lines 68-73: the loop over [rem_lines]; gives [updated_flag] and
    the lines written to the local file. *)
Definition append_unseen (loc_lines rem_lines : list string)
  : bool * list string :=
  fold_left
    (fun '(updated_flag, w) line =>
       if bool_decide (line ∈ loc_lines) then (updated_flag, w)
       else (true, w ++ [line]))
    rem_lines (false, []).

(** [sync_so2_data(buffer_len)] *)
Definition sync_so2_data (buffer_len : nat) : M bool :=
  w <- get ;;
  match read (local w) so2_output with
  | None => copy_so2_data ;;; ret true
  | Some loc_file =>
      let loc_lines := PyStr.strip <$> loc_file in
      output <- run_command (Tail buffer_len so2_output) ;;
      let rem_lines := PyStr.strip <$> output in
      let '(updated_flag, new) := append_unseen loc_lines rem_lines in
      modify (fun w => set_local (write so2_output (loc_file ++ new) (local w)) w) ;;;
      ret updated_flag
  end.

(** [os.listdir(loc_folder)] *)
Definition listdir (d : gmap string (list string)) : list string :=
  (map_to_list d).*1.

(** The local path [f'{loc_folder}/{file}'] of an audit file. *)
Definition local_meas_path (w : World) (file : string) : string :=
  String.append "Results/"
    (String.append (folder w) (String.append "/meas/" file)).

(** [sync_results]: gives the local paths of the audit files it pulled. *)
Definition sync_results : M (list string) :=
  output <- run_command LsMeas ;;
  let rem_files := basename <$> output in
  w <- get ;;
  let loc_files := listdir (meas_dir (local w)) in
  let files_to_sync :=
    filter (fun f => f ∉ loc_files) rem_files in
  for_each_with files_to_sync []
    (fun synced_files file =>
       try_except
         (copy_remote_file (InMeas file) ;;;
          ret (synced_files ++ [local_meas_path w file]))
         (ret synced_files)).

(** [sync_spectra]: gives the names of the spectrum files it pulled. *)
Definition sync_spectra : M (list string) :=
  output <- run_command LsSpectra ;;
  let rem_files := basename <$> output in
  w <- get ;;
  let loc_files := listdir (run_dir (local w)) in
  let files_to_sync :=
    filter (fun f => f ∉ loc_files) rem_files in
  for_each files_to_sync (fun file => copy_remote_file (InRun file)) ;;;
  ret files_to_sync.

(** [pull_log] *)
Definition pull_log : M unit := copy_remote_file log_txt.

(** The ledger as the airborne unit and the ground station hold it. *)
Definition remote_ledger (w : World) : option (list string) :=
  read (remote w) so2_output.

Definition local_ledger (w : World) : option (list string) :=
  read (local w) so2_output.

(** The lines of a file as [sync_so2_data] reads them. *)
Definition lines_of (f : list string) : list string := PyStr.strip <$> f.

(** The airborne listener appends rows to the remote ledger. *)
Definition grow (rows : list string) (w : World) : World :=
  set_remote
    (write so2_output (default [] (remote_ledger w) ++ rows) (remote w)) w.

(** Sync cycles with growth of the remote ledger in between: before
    each cycle the remote ledger gains the rows of one entry. *)
Fixpoint cycles (buffer_len : nat) (growth : list (list string)) (w : World)
  : World :=
  match growth with
  | [] => w
  | rows :: growth' =>
      cycles buffer_len growth' (sync_so2_data buffer_len (grow rows w)).2
  end.

(** *** Vocabulary for the statements about transport failures *)

(** The transport calls that [op] makes when run in [w]. *)
Definition made {A} (op : M A) (w : World) : nat :=
  length (calls (op w).2) - length (calls w).

(** [op] lets every transport failure through: when one of the calls
    it makes fails, [op] raises and that call is the last one made. *)
Definition propagates {A} (op : M A) : Prop :=
  ∀ w k, faults w !! k = Some true → (k < made op w)%nat →
         (∃ e, (op w).1 = Raise e) ∧ made op w = S k.

(** [op] only adds to the call log, uses one schedule entry per call,
    and stops at the first call that fails. *)
Definition orderly {A} (op : M A) : Prop :=
  ∀ w, ∃ cs,
    calls (op w).2 = calls w ++ cs
    ∧ faults (op w).2 = drop (length cs) (faults w)
    ∧ ∀ k, (k < length cs)%nat → faults w !! k = Some true →
           length cs = S k ∧ ∃ e, (op w).1 = Raise e.

(** The audit files that [sync_results] sets out to pull. *)
Definition results_to_sync (w : World) : list string :=
  filter (fun f => f ∉ listdir (meas_dir (local w)))
         (basename <$> stdout LsMeas w).

End PiSpec.

(* --------------------------------------------------------------------- *)
(** ** DroneSpecUI.py: the log mirror                                     *)
(* --------------------------------------------------------------------- *)

Module Monitor.

(** The read-only text box [self.log], a [QPlainTextEdit], as the list
    of the paragraphs of its document.  A Qt document always has at
    least one paragraph; the empty document has one empty paragraph. *)
Definition QPlainTextEdit := list string.

Definition empty_box : QPlainTextEdit := [EmptyString].

(** [box.toPlainText().split('\n')]: the paragraphs, and [['']] for the
    empty document. *)
Definition plain_text_lines (box : QPlainTextEdit) : list string :=
  match box with
  | [] => [EmptyString]
  | _ => box
  end.

(** [box.appendPlainText(s)]: a new paragraph at the end, except that
    an empty document takes the text into its only paragraph. *)
Definition appendPlainText (s : string) (box : QPlainTextEdit)
  : QPlainTextEdit :=
  match box with
  | [] => [s]
  | [b] => if bool_decide (b = EmptyString) then [s] else [b; s]
  | _ => box ++ [s]
  end.

(** [MainWindow.update_log(log_text)] *)
Definition update_log (log_text : list string) (box : QPlainTextEdit)
  : QPlainTextEdit :=
  let text := plain_text_lines box in
  fold_left (fun b line => appendPlainText (PyStr.strip line) b)
            (drop (length text) log_text) box.

(** The log part of the cycles of [SyncWorker._run]: each cycle pulls
    the remote log as it stands and hands all of its lines to
    [update_log]. *)
Definition monitor (remote_logs : list (list string)) (box : QPlainTextEdit)
  : QPlainTextEdit :=
  fold_left (fun b log_text => update_log log_text b) remote_logs box.

End Monitor.

(* --------------------------------------------------------------------- *)
(** ** run_DroneSpec.py, lines 96-123: the settings                       *)
(* --------------------------------------------------------------------- *)

Module Settings.

(** The values of the settings file that the script uses. *)
Inductive yaml :=
  | YInt (z : Z)
  | YList (zs : list Z).

Definition default_config : gmap string yaml :=
  {[ "TargetIntensity" := YInt 50000;
     "MinIntTime" := YInt 50;
     "MaxIntTime" := YInt 300;
     "IntTimeStep" := YInt 10;
     "GPSCOMPORT" := YInt 0;
     "FitWindow" := YList [310; 320]%Z ]}.

(** Lines 103-108: [load_config] is the mapping read from
    [bin/dronespec_settings.yml], [None] when the file does not exist. *)
Definition config (load_config : option (gmap string yaml))
  : gmap string yaml :=
  match load_config with
  | Some load_config => load_config ∪ default_config
  | None => default_config
  end.

(** [config[key]] for a key that has to hold an integer; [None] stands
    for the KeyError of a missing key (other kinds of value are not
    modelled). *)
Definition int_setting (config : gmap string yaml) (key : string)
  : option Z :=
  match config !! key with
  | Some (YInt z) => Some z
  | _ => None
  end.

(** Lines 114-116: the ladder of integration times. *)
Definition int_times (config : gmap string yaml) : option (list Z) :=
  lo ← int_setting config "MinIntTime";
  hi ← int_setting config "MaxIntTime";
  step ← int_setting config "IntTimeStep";
  Some (Exposure.arange lo (hi + step) step).

(** Line 123: the key under which the GPS port is looked up. *)
Definition gps_port (config : gmap string yaml) : option yaml :=
  config !! "GPSCOMPort".

(** The keys of [default_config]. *)
Definition default_keys : list string :=
  ["TargetIntensity"; "MinIntTime"; "MaxIntTime"; "IntTimeStep";
   "GPSCOMPORT"; "FitWindow"].

End Settings.

(* --------------------------------------------------------------------- *)
(** ** The control marker: [send_start], [send_stop], [start_stop_pispec]  *)
(* --------------------------------------------------------------------- *)

Module Control.

(** The control file of the airborne unit, what the [PiSpec] object and
    the start/stop button hold about it, and the link in between
    ([faults] as in [PiSpec.World]). *)
Record Station := {
  controlON : bool;        (* /home/pi/drone/bin/controlON exists        *)
  is_active : bool;        (* self.is_active                             *)
  go_btn : string;         (* the text of the start/stop button          *)
  faults : list bool
}.

Inductive command :=
  | Touch                  (* touch /home/pi/drone/bin/controlON         *)
  | Rm.                    (* rm /home/pi/drone/bin/controlON            *)

(** [self.client.run_command(cmd)] for the two commands: a call that
    fails raises and leaves the control file as it is. *)
Definition run_command (c : command) (s : Station) : result unit * Station :=
  let s' := {| controlON := controlON s; is_active := is_active s;
               go_btn := go_btn s; faults := tail (faults s) |} in
  if default false (head (faults s)) then (Raise CommandFailed, s')
  else
    (Ok tt,
     {| controlON := match c with Touch => true | Rm => false end;
        is_active := is_active s; go_btn := go_btn s;
        faults := tail (faults s) |}).

Definition set_is_active (b : bool) (s : Station) : Station :=
  {| controlON := controlON s; is_active := b; go_btn := go_btn s;
     faults := faults s |}.

Definition setText (text : string) (s : Station) : Station :=
  {| controlON := controlON s; is_active := is_active s; go_btn := text;
     faults := faults s |}.

(** [PiSpec.send_start] *)
Definition send_start (s : Station) : result unit * Station :=
  match run_command Touch s with
  | (Ok _, s') => (Ok tt, set_is_active true s')
  | (Raise e, s') => (Raise e, s')
  end.

(** [PiSpec.send_stop] *)
Definition send_stop (s : Station) : result unit * Station :=
  match run_command Rm s with
  | (Ok _, s') => (Ok tt, set_is_active false s')
  | (Raise e, s') => (Raise e, s')
  end.

(** [MainWindow.start_stop_pispec] *)
Definition start_stop_pispec (s : Station) : result unit * Station :=
  if is_active s then
    match send_stop s with
    | (Ok _, s') => (Ok tt, setText "Start!" s')
    | (Raise e, s') => (Raise e, s')
    end
  else
    match send_start s with
    | (Ok _, s') => (Ok tt, setText "Stop!" s')
    | (Raise e, s') => (Raise e, s')
    end.

(** What the operator or the program does to the station. *)
Inductive op :=
  | SendStart
  | SendStop
  | Click.                 (* the start/stop button                      *)

Definition perform (o : op) : Station -> result unit * Station :=
  match o with
  | SendStart => send_start
  | SendStop => send_stop
  | Click => start_stop_pispec
  end.

(** The operations one after the other, up to the first one that
    raises. *)
Fixpoint session (ops : list op) (s : Station) : result unit * Station :=
  match ops with
  | [] => (Ok tt, s)
  | o :: ops' =>
      match perform o s with
      | (Ok _, s') => session ops' s'
      | (Raise e, s') => (Raise e, s')
      end
  end.

End Control.

(* --------------------------------------------------------------------- *)
(** ** DroneSpecUI.py, lines 383-450: [SyncWorker]                        *)
(* --------------------------------------------------------------------- *)

Module SyncWorker.

Import PiSpec.

(** What can end [_run]: an exception of the sync client, a file that is
    not there when it is opened, or [pd.read_csv] failing on the
    replica. *)
Inductive worker_exn :=
  | FromPiSpec (e : exn)
  | FileNotFound
  | ParseFailed.

(** What [pd.read_csv] makes of the replica: the columns for the plots,
    the [EmptyDataError] that [_run] passes over, or another error. *)
Inductive csv (D : Type) :=
  | Parsed (d : D)
  | EmptyData
  | BadData.
Arguments Parsed {D} d.
Arguments EmptyData {D}.
Arguments BadData {D}.

(** The signals of the worker. *)
Inductive signal (D : Type) :=
  | UpdateStatus (s : string)
  | UpdateLog (log_text : list string)
  | UpdatePlots (d : D)
  | Error (e : worker_exn)
  | Finished.
Arguments UpdateStatus {D} s.
Arguments UpdateLog {D} log_text.
Arguments UpdatePlots {D} d.
Arguments Error {D} e.
Arguments Finished {D}.

Section Worker.

(** The plot data [[tstamp, lat, lon, so2]] and the reading of the
    replica into it (pandas). *)
Variable D : Type.
Variable read_csv : list string -> csv D.

(** Lines 417-450: one pass of the [while] loop of [_run]; gives the
    exception that ended it, if any, and the signals emitted. *)
Definition cycle (w : World)
  : option worker_exn * list (signal D) * World :=
  let working := [UpdateStatus "Working..."] in
  match pull_log w with
  | (Raise e, w1) => (Some (FromPiSpec e), working, w1)
  | (Ok _, w1) =>
      match read (local w1) log_txt with
      | None => (Some FileNotFound, working, w1)
      | Some log_text =>
          let logged := working ++ [UpdateLog log_text] in
          match sync_so2_data 100 w1 with
          | (Raise e, w2) => (Some (FromPiSpec e), logged, w2)
          | (Ok update_flag, w2) =>
              if update_flag then
                match read (local w2) so2_output with
                | None => (Some FileNotFound, logged, w2)
                | Some rows =>
                    match read_csv rows with
                    | Parsed d =>
                        (None,
                         logged ++ [UpdatePlots d; UpdateStatus "Done"], w2)
                    | EmptyData =>
                        (None, logged ++ [UpdateStatus "Done"], w2)
                    | BadData => (Some ParseFailed, logged, w2)
                    end
                end
              else (None, logged ++ [UpdateStatus "Done"], w2)
          end
      end
  end.

(** [_run], for a worker whose [is_stopped] flag is found set after
    [n] passes. *)
Fixpoint _run (n : nat) (w : World)
  : option worker_exn * list (signal D) * World :=
  match n with
  | O => (None, [], w)
  | S n' =>
      match cycle w with
      | (Some e, signals, w') => (Some e, signals, w')
      | (None, signals, w') =>
          let '(r, signals', w'') := _run n' w' in
          (r, signals ++ signals', w'')
      end
  end.

(** [run] *)
Definition run (n : nat) (w : World) : list (signal D) * World :=
  let '(r, signals, w') := _run n w in
  (signals
   ++ match r with Some e => [Error e] | None => [] end
   ++ [Finished],
   w').

End Worker.

End SyncWorker.

(* --------------------------------------------------------------------- *)
(** ** Vocabulary for the statements about the acquisition loop           *)
(* --------------------------------------------------------------------- *)

(** The actions of the shutdown sequence of [run] (lines 256-264). *)
Definition is_shutdown (a : Acquisition.action) : bool :=
  match a with
  | Acquisition.PutKill | Acquisition.ProgramEnded
  | Acquisition.JoinListener | Acquisition.Join _ => true
  | _ => false
  end.

(** The books of the loop are in order: the spectrum files written are
    those numbered below [k], the fit processes started are distinct and
    numbered below [b], and the process list is made of started
    processes, in the order of their start. *)
Definition bookkeeping (k b : nat) (st : Acquisition.State) : Prop :=
  Acquisition.spectrum_files (Acquisition.trace st) = seq 0 k
  ∧ NoDup (Acquisition.started (Acquisition.trace st))
  ∧ (∀ j, j ∈ Acquisition.started (Acquisition.trace st) → (j < b)%nat)
  ∧ Acquisition.processes st
    `sublist_of` Acquisition.started (Acquisition.trace st).

(** A pass of the loop during which the control file is absent and
    nobody interrupts. *)
Definition idle (tk : Acquisition.Tick) : Prop :=
  Acquisition.control_on tk = false ∧ Acquisition.interrupt tk = None.

(* --------------------------------------------------------------------- *)
(** ** Concrete inputs used by the examples of Part II                    *)
(* --------------------------------------------------------------------- *)

Definition busy_tick : Acquisition.Tick :=
  {| Acquisition.control_on := true;
     Acquisition.max_int := Exposure.Fin 50000;
     Acquisition.is_alive := fun _ => true;
     Acquisition.interrupt := None |}.

Definition default_config : Acquisition.Config :=
  {| Acquisition.target_int := Exposure.Fin 50000;
     Acquisition.int_times := Exposure.arange 50 310 10 |}.

Definition three_running : Acquisition.State :=
  {| Acquisition.i := 3; Acquisition.integration_time := 120;
     Acquisition.processes := [0; 1; 2]%nat;
     Acquisition.trace := [] |}.

Definition dark_tick : Acquisition.Tick :=
  {| Acquisition.control_on := true;
     Acquisition.max_int := Exposure.Fin 0;
     Acquisition.is_alive := fun _ => true;
     Acquisition.interrupt := None |}.

Definition sample_record : list Ledger.pyval :=
  [Ledger.PStr "2024-01-01 12:00:00"; Ledger.PFloat 1; Ledger.PFloat 2;
   Ledger.PFloat 3; Ledger.PFloat 4; Ledger.PFloat 5; Ledger.PInt 30;
   Ledger.PStr "U"; Ledger.PFloat 6; Ledger.PFloat 7; Ledger.PFloat 8;
   Ledger.PFloat 9; Ledger.PFloat 100; Ledger.PFloat 40000].

Definition sample_fmt (v : Ledger.pyval) : string :=
  match v with
  | Ledger.PStr s => s
  | Ledger.PInt _ => "i"
  | Ledger.PFloat _ => "f"
  end.

Definition sample_spectrum : Ledger.Spectrum :=
  {| Ledger.x := [310; 320]%Q; Ledger.y := [100; 200]%Q;
     Ledger.info :=
       {| Ledger.timestamp := "2024-01-01 12:00:00";
          Ledger.lat := 1; Ledger.lon := 2; Ledger.alt := 3;
          Ledger.integration_time := 100 |} |}.

(** A fit that fails on the spectrum with sequence number 1 only. *)
Definition failing_fit_on_1 (i : nat) : result Ledger.Spectrum :=
  if (i =? 1)%nat then Raise FitError else Ok sample_spectrum.

Definition sample_fit (xy : list Q * list Q) : result Ledger.Fit :=
  Ok {| Ledger.fit_val := 2540000000000000000 # 1; Ledger.fit_err := 0;
        Ledger.spec := xy.2 |}.

Definition sample_utm (lat lon : Q) : result (Q * Q * Z * string) :=
  Ok (4, 5, 30%Z, "U")%Q.

Definition ledger_world (remote_rows : list string)
    (local_rows : option (list string)) : PiSpec.World :=
  {| PiSpec.folder := "20240101_120000";
     PiSpec.remote :=
       {| PiSpec.run_dir := {[ "so2_output.csv" := remote_rows ]};
          PiSpec.meas_dir := ∅ |};
     PiSpec.local :=
       {| PiSpec.run_dir :=
            match local_rows with
            | Some rows => {[ "so2_output.csv" := rows ]}
            | None => ∅
            end;
          PiSpec.meas_dir := ∅ |};
     PiSpec.faults := [];
     PiSpec.calls := [] |}.

(** One audit file to pull, over a link on which the listing goes
    through and the copy fails. *)
Definition results_world : PiSpec.World :=
  {| PiSpec.folder := "20240101_120000";
     PiSpec.remote :=
       {| PiSpec.run_dir := ∅;
          PiSpec.meas_dir := {[ "meas_00000.txt" := ["row,"] ]} |};
     PiSpec.local := {| PiSpec.run_dir := ∅; PiSpec.meas_dir := ∅ |};
     PiSpec.faults := [false; true];
     PiSpec.calls := [] |}.

(* --------------------------------------------------------------------- *)
(** ** Concrete inputs used by the examples of Part III                   *)
(* --------------------------------------------------------------------- *)

(** Two spectra on the airborne unit, the first of them already on the
    ground, over a working link. *)
Definition spectra_world : PiSpec.World :=
  {| PiSpec.folder := "20240101_120000";
     PiSpec.remote :=
       {| PiSpec.run_dir :=
            {[ "spectrum_00000.txt" := ["310,100"];
               "spectrum_00001.txt" := ["310,120"];
               "so2_output.csv" := ["h"] ]};
          PiSpec.meas_dir := ∅ |};
     PiSpec.local :=
       {| PiSpec.run_dir := {[ "spectrum_00000.txt" := ["310,100"] ]};
          PiSpec.meas_dir := ∅ |};
     PiSpec.faults := [];
     PiSpec.calls := [] |}.

(** A run folder with a log and a ledger on the airborne unit and
    nothing on the ground yet. *)
Definition worker_world (faults : list bool) : PiSpec.World :=
  {| PiSpec.folder := "20240101_120000";
     PiSpec.remote :=
       {| PiSpec.run_dir :=
            {[ "log.txt" := ["12:00:00 - PiSpec ready!"];
               "so2_output.csv" := ["h"; "a"] ]};
          PiSpec.meas_dir := ∅ |};
     PiSpec.local := {| PiSpec.run_dir := ∅; PiSpec.meas_dir := ∅ |};
     PiSpec.faults := faults;
     PiSpec.calls := [] |}.

(** A reading of the replica that gives the number of its data rows. *)
Definition count_rows (rows : list string) : SyncWorker.csv nat :=
  match rows with
  | [] => SyncWorker.EmptyData
  | _ :: data => SyncWorker.Parsed (length data)
  end.

(** The station as [PiSpec.__init__] and the main window leave it, with
    a link on which the second command fails. *)
Definition fresh_station : Control.Station :=
  {| Control.controlON := false; Control.is_active := false;
     Control.go_btn := "Start!"; Control.faults := [false; true; false] |}.

(* ===================================================================== *)
(** * Part II: properties                                                 *)
(* ===================================================================== *)

(** Closes a goal between closed terms by running both sides. *)
Ltac by_evaluation := vm_compute; reflexivity.

(** Settles a decidable closed proposition by running its decision. *)
Ltac by_decision := apply (bool_decide_unpack _); vm_compute; exact I.

(** ** The exposure computation *)

Section ExposureFacts.
Import Exposure.

Lemma flt_fin (x y : Q) : flt (Fin x) (Fin y) = true <-> (x < y)%Q.
Proof.
  simpl. rewrite negb_true_iff. split.
  - intros H. apply Qnot_le_lt. intros Hle. apply Qle_bool_iff in Hle. congruence.
  - intros H. destruct (Qle_bool y x) eqn:E; [|done].
    apply Qle_bool_iff in E. exfalso. eapply Qlt_not_le; eauto.
Qed.

(** The running minimum of finite values is one of them and lies below
    all of them. *)
Lemma fold_min_fin (qs : list Q) (q0 : Q) :
  ∃ m, fold_left (fun m y => if flt y m then y else m) (Fin <$> qs) (Fin q0)
       = Fin m
       ∧ m ∈ q0 :: qs
       ∧ ∀ q, q ∈ q0 :: qs → (m <= q)%Q.
Proof.
  revert q0. induction qs as [|q qs IH]; intros q0; simpl.
  - exists q0. split_and!; [done|left|].
    intros q Hq. apply list_elem_of_singleton in Hq as ->. apply Qle_refl.
  - destruct (negb (Qle_bool q0 q)) eqn:E.
    + destruct (IH q) as (m & Hm & Hin & Hle). exists m.
      split_and!; [done|by right|].
      intros r Hr. apply elem_of_cons in Hr; destruct Hr as [->|Hr]; [|by apply Hle].
      assert (q < q0)%Q as Hlt by (by apply flt_fin).
      apply Qle_trans with q; [apply Hle; left|by apply Qlt_le_weak].
    + destruct (IH q0) as (m & Hm & Hin & Hle). exists m.
      split_and!; [done|by apply elem_of_cons in Hin; destruct Hin as [->|?]; [left|do 2 right]|].
      intros r Hr. apply elem_of_cons in Hr; destruct Hr as [->|Hr]; [apply Hle; left|].
      apply elem_of_cons in Hr; destruct Hr as [->|Hr]; [|by apply Hle; right].
      apply negb_false_iff, Qle_bool_iff in E.
      apply Qle_trans with q0; [apply Hle; left|done].
Qed.

Lemma first_true_ok (mask : list bool) :
  true ∈ mask →
  ∃ idx, first_true mask = Ok idx ∧ mask !! idx = Some true
         ∧ ∀ j, (j < idx)%nat → mask !! j = Some false.
Proof.
  induction mask as [|b mask IH]; intros Hin; [set_solver|].
  destruct b; simpl.
  - exists 0%nat. split_and!; [done..|]. intros j Hj. lia.
  - apply elem_of_cons in Hin; destruct Hin as [?|Hin]; [done|].
    destruct (IH Hin) as (idx & -> & Hidx & Hlt). exists (S idx).
    split_and!; [done..|]. intros [|j] Hj; [done|]. simpl. apply Hlt. lia.
Qed.

Lemma diff_fin (int_times : list Z) (s : Q) :
  diff int_times (Fin s)
  = Fin <$> ((fun t => Qabs (inject_Z t - s)) <$> int_times).
Proof. unfold diff. rewrite <- list_fmap_compose. done. Qed.

Lemma scaled_time_fin (integration_time : Z) (target_int max_int : Q) :
  (0 < max_int)%Q →
  scaled_time integration_time (Fin target_int) (Fin max_int)
  = Fin (inject_Z integration_time * (target_int / max_int)).
Proof.
  intros Hpos. unfold scaled_time, scale, fdiv.
  destruct (Qeq_bool max_int 0) eqn:E; [|done].
  apply Qeq_bool_iff in E. rewrite E in Hpos. by apply Qlt_irrefl in Hpos.
Qed.

(** With a positive peak the computation returns the first ladder value
    among those at the least distance from the scaled time. *)
Lemma new_int_time_fin (int_times : list Z) (target_int max_int : Q)
    (integration_time : Z) :
  int_times ≠ [] → (0 < max_int)%Q →
  let s := (inject_Z integration_time * (target_int / max_int))%Q in
  ∃ idx t,
    new_int_time int_times (Fin target_int) (Fin max_int) integration_time
    = Ok t
    ∧ int_times !! idx = Some t
    ∧ (∀ u, u ∈ int_times →
         (Qabs (inject_Z t - s) <= Qabs (inject_Z u - s))%Q)
    ∧ (∀ j u, (j < idx)%nat → int_times !! j = Some u →
         (Qabs (inject_Z t - s) < Qabs (inject_Z u - s))%Q).
Proof.
  intros Hne Hpos s. unfold new_int_time.
  rewrite scaled_time_fin by done. fold s. rewrite diff_fin.
  set (g := fun t : Z => Qabs (inject_Z t - s)).
  destruct int_times as [|t1 rest]; [done|]. clear Hne.
  rewrite !fmap_cons. cbn [py_min].
  destruct (fold_min_fin (g <$> rest) (g t1)) as (m & -> & Hin & Hmin).
  rewrite <- !fmap_cons. rewrite <- fmap_cons in Hin, Hmin.
  set (l := t1 :: rest) in *.
  destruct (first_true_ok ((fun x => feq x (Fin m)) <$> (Fin <$> (g <$> l))))
    as (idx & -> & Hidx & Hbefore).
  { apply list_elem_of_fmap. exists (Fin m). split.
    - simpl. symmetry. apply Qeq_bool_iff. reflexivity.
    - apply list_elem_of_fmap. by exists m. }
  rewrite !list_lookup_fmap in Hidx.
  destruct (l !! idx) as [t|] eqn:Ht; [|done]. simpl in Hidx.
  assert (g t == m)%Q as Hgt.
  { apply Qeq_bool_iff. by injection Hidx. }
  exists idx, t. split_and!; [done..| |].
  - intros u Hu. fold (g t) (g u). rewrite Hgt. apply Hmin.
    apply list_elem_of_fmap. by exists u.
  - intros j u Hj Hu. fold (g t) (g u). rewrite Hgt.
    specialize (Hbefore j Hj). rewrite !list_lookup_fmap, Hu in Hbefore.
    simpl in Hbefore. injection Hbefore as Hne.
    assert (m <= g u)%Q as Hle.
    { apply Hmin, list_elem_of_fmap. exists u. split; [done|].
      by eapply list_elem_of_lookup_2. }
    apply Qle_lteq in Hle as [Hlt|Heq]; [done|].
    symmetry in Heq. apply Qeq_bool_iff in Heq. congruence.
Qed.
End ExposureFacts.




(** ** The acquisition loop *)

Section AcquisitionFacts.
Import Exposure Acquisition.

Lemma new_int_time_zero_peak (t1 : Z) (rest : list Z) (target_int : Q)
    (integration_time : Z) :
  (0 < target_int)%Q → (0 < integration_time)%Z →
  scale (Fin target_int) (Fin 0) = PInf
  ∧ new_int_time (t1 :: rest) (Fin target_int) (Fin 0) integration_time
    = Ok t1.
Proof.
  intros Htarget Htime.
  assert (scale (Fin target_int) (Fin 0) = PInf) as Hscale.
  { unfold scale, fdiv. simpl. by rewrite (proj1 (Qgt_alt _ _) Htarget). }
  split; [done|]. unfold new_int_time, scaled_time. rewrite Hscale.
  assert (fmul (Fin (inject_Z integration_time)) PInf = PInf) as ->.
  { unfold fmul, sign. 
    assert (0 < inject_Z integration_time)%Q as H
      by (change (inject_Z 0 < inject_Z integration_time)%Q;
          by rewrite <- Zlt_Qlt).
    by rewrite (proj1 (Qgt_alt _ _) H). }
  assert (∀ l, diff l PInf = (fun _ => PInf) <$> l) as ->
    by (intros l; unfold diff; by apply list_fmap_ext).
  assert (∀ (l : list Z) m,
             fold_left (fun m y => if flt y m then y else m)
                       ((fun _ => PInf) <$> l) m = m) as Hfold.
  { induction l as [|u l IH]; intros m; [done|]. simpl.
    destruct m; simpl; apply IH. }
  cbn [fmap list_fmap py_min]. by rewrite Hfold.
Qed.

Lemma processes_complete (st : State) :
  processes (complete st) = processes st.
Proof.
  unfold complete.
  assert (∀ ps s, processes (fold_left (fun s p => emit (Join p) s) ps s)
                  = processes s) as H.
  { induction ps as [|p ps IH]; intros s; [done|]. simpl. by rewrite IH. }
  by rewrite H.
Qed.

Lemma trace_complete (st : State) :
  trace (complete st)
  = trace st ++ [ProgramEnded; JoinListener] ++ (Join <$> processes st).
Proof.
  unfold complete.
  assert (∀ ps s, trace (fold_left (fun s p => emit (Join p) s) ps s)
                  = trace s ++ (Join <$> ps)) as H.
  { induction ps as [|p ps IH]; intros s; simpl.
    - by rewrite app_nil_r.
    - rewrite IH. simpl. by rewrite <- app_assoc. }
  rewrite H. simpl. by rewrite <- !app_assoc.
Qed.

Lemma submit_job_bound (st : State) :
  (length (processes (submit_job st)) <= 3)%nat
  ↔ (length (processes st) <= 3)%nat.
Proof.
  unfold submit_job. destruct (length (processes st) <? 3)%nat eqn:E; simpl.
  - apply Nat.ltb_lt in E. rewrite length_app. simpl. lia.
  - done.
Qed.

Lemma prune_bound (tk : Tick) (st : State) :
  (length (processes (prune tk st)) <= length (processes st))%nat.
Proof. simpl. apply length_filter. Qed.

(** No pass of the loop lets the process list grow beyond three. *)
Lemma loop_pass_bound (cfg : Config) (tk : Tick) (st : State) :
  (length (processes st) <= 3)%nat →
  (length (processes (state_of (loop_pass cfg tk st))) <= 3)%nat.
Proof.
  intros Hst. pose proof (prune_bound tk st) as Hprune.
  unfold loop_pass, try_block, on_keyboard_interrupt.
  repeat (case_match; simpl in *; try done; try lia);
    rewrite ?submit_job_bound; simpl; lia.
Qed.

Lemma loop_bound (cfg : Config) (ticks : list Tick) (st : State) :
  (length (processes st) <= 3)%nat →
  (length (processes (final (loop cfg ticks st))) <= 3)%nat.
Proof.
  revert st. induction ticks as [|tk ticks IH]; intros st Hst; [done|].
  simpl. pose proof (loop_pass_bound cfg tk st Hst) as Hpass.
  destruct (loop_pass cfg tk st); simpl in *; [by apply IH| |done].
  by rewrite processes_complete.
Qed.

Lemma started_app (tr1 tr2 : list action) :
  started (tr1 ++ tr2) = started tr1 ++ started tr2.
Proof. apply omap_app. Qed.

Lemma spectrum_files_app (tr1 tr2 : list action) :
  spectrum_files (tr1 ++ tr2) = spectrum_files tr1 ++ spectrum_files tr2.
Proof. apply omap_app. Qed.

(** What a pass of the [try] block that runs to its end does. *)
Lemma try_block_continue (cfg : Config) (tk : Tick) (st st' : State) :
  try_block cfg tk st = Continue st' →
  let pruned := filter (fun p => is_alive tk p = true) (processes st) in
  i st' = S (i st)
  ∧ spectrum_files (trace st') = spectrum_files (trace st) ++ [i st]
  ∧ ((length pruned < 3)%nat →
       processes st' = pruned ++ [i st]
       ∧ started (trace st') = started (trace st) ++ [i st])
  ∧ ((3 <= length pruned)%nat →
       processes st' = pruned
       ∧ started (trace st') = started (trace st)
       ∧ last (trace st') = Some TooManyProcesses).
Proof.
  intros H pruned. unfold try_block, on_keyboard_interrupt in H.
  destruct (hit tk AtGetSpectrum); [done|].
  destruct (hit tk AtExposure); [done|].
  destruct (new_int_time _ _ _ _) as [t|]; [|done].
  destruct (hit tk AtPrune); [done|].
  destruct (hit tk AtStart); [done|].
  destruct (hit tk AtIncrement); [done|].
  injection H as <-. unfold submit_job.
  destruct (bool_decide _); simpl; fold pruned.
  all: destruct (length pruned <? 3)%nat eqn:E;
    [apply Nat.ltb_lt in E|apply Nat.ltb_ge in E]; simpl.
  all: rewrite ?started_app, ?spectrum_files_app; simpl.
  all: rewrite ?app_nil_r, ?last_snoc.
  all: split_and!; try done; try (intros; lia).
Qed.

Lemma caught_interrupt_joins (cfg : Config) (tk : Tick) (st st1 : State) :
  loop_pass cfg tk st = Break st1 →
  ∃ before,
    trace (complete st1)
    = before ++ [PutKill; ProgramEnded; JoinListener]
             ++ (Join <$> processes st1).
Proof.
  intros H. rewrite trace_complete.
  assert (∃ before, trace st1 = before ++ [PutKill]) as [before ->].
  { unfold loop_pass, try_block, on_keyboard_interrupt in H.
    destruct (hit tk AtPoll); [done|].
    destruct (control_on tk); [|by destruct (interrupt tk)].
    destruct (hit tk AtGetSpectrum); [injection H as <-; by eexists|].
    destruct (hit tk AtExposure); [injection H as <-; by eexists|].
    destruct (new_int_time _ _ _ _) as [t|]; [|done].
    destruct (hit tk AtPrune); [injection H as <-; by eexists|].
    destruct (hit tk AtStart); [injection H as <-; by eexists|].
    destruct (hit tk AtIncrement); [injection H as <-; by eexists|done]. }
  exists before. by rewrite <- !app_assoc.
Qed.

End AcquisitionFacts.

(** C4: the list of fit processes never holds more than three; a pass
    that runs to its end prunes the finished processes, then starts the
    job for the spectrum just written if fewer than three are left, and
    otherwise starts nothing and logs the warning, the spectrum file
    staying on disk. *)
Theorem at_most_three_fit_jobs :
  (∀ cfg t0 ticks,
      (length (Acquisition.processes
                 (Acquisition.final (Acquisition.run cfg t0 ticks))) <= 3)%nat)
  ∧ (∀ cfg tk st st',
        Acquisition.loop_pass cfg tk st = Acquisition.Continue st' →
        Acquisition.control_on tk = true →
        let pruned := filter (fun p => Acquisition.is_alive tk p = true)
                             (Acquisition.processes st) in
        Acquisition.spectrum_files (Acquisition.trace st')
        = Acquisition.spectrum_files (Acquisition.trace st)
          ++ [Acquisition.i st]
        ∧ ((length pruned < 3)%nat →
             Acquisition.processes st' = pruned ++ [Acquisition.i st]
             ∧ Acquisition.started (Acquisition.trace st')
               = Acquisition.started (Acquisition.trace st)
                 ++ [Acquisition.i st])
        ∧ ((3 <= length pruned)%nat →
             Acquisition.processes st' = pruned
             ∧ Acquisition.started (Acquisition.trace st')
               = Acquisition.started (Acquisition.trace st)
             ∧ last (Acquisition.trace st')
               = Some Acquisition.TooManyProcesses)).
Proof.
  split.
  - intros cfg t0 ticks. apply loop_bound. simpl. lia.
  - intros cfg tk st st' Hpass Hon pruned.
    unfold Acquisition.loop_pass in Hpass. rewrite Hon in Hpass.
    destruct (Acquisition.hit tk Acquisition.AtPoll); [done|].
    by destruct (try_block_continue cfg tk st st' Hpass) as (_ & ? & ? & ?).
Qed.

Lemma at_most_three_fit_jobs_witness :
  ∃ st',
    Acquisition.loop_pass default_config busy_tick three_running
    = Acquisition.Continue st'
    ∧ Acquisition.processes st' = [0; 1; 2]%nat
    ∧ Acquisition.started (Acquisition.trace st') = []
    ∧ Acquisition.spectrum_files (Acquisition.trace st') = [3%nat].
Proof.
  assert (Acquisition.loop_pass default_config busy_tick three_running
          = Acquisition.Continue
              {| Acquisition.i := 4; Acquisition.integration_time := 120;
                 Acquisition.processes := [0; 1; 2]%nat;
                 Acquisition.trace :=
                   [Acquisition.GetSpectrum 3;
                    Acquisition.TooManyProcesses] |}) as Hpass
    by by_evaluation.
  eexists. split; [exact Hpass|].
  destruct (proj2 at_most_three_fit_jobs default_config busy_tick
              three_running _ Hpass eq_refl) as (Hfiles & _ & Hfull).
  destruct Hfull as (Hps & Hstarted & _); [simpl; lia|].
  split_and!; [exact Hps|exact Hstarted|exact Hfiles].
Defined.

(** C9: a KeyboardInterrupt raised while the loop polls for the control
    file (lines 206-208) is raised outside the [try] block: it leaves
    [run] at once, without ['kill'] on the queue and without any join. *)
Theorem interrupt_while_polling_is_not_caught :
  ∀ cfg st max_int is_alive p,
    Acquisition.loop cfg
      [{| Acquisition.control_on := false; Acquisition.max_int := max_int;
          Acquisition.is_alive := is_alive;
          Acquisition.interrupt := Some p |}] st
    = Acquisition.Crashed KeyboardInterrupt st.
Proof.
  intros cfg st max_int is_alive p. unfold Acquisition.loop, Acquisition.loop_pass.
  by destruct (Acquisition.hit _ _).
Qed.

(** C10 as the code has it: nothing guards a zero peak.  With a positive
    target and a positive integration time the quotient is +inf, every
    ladder distance is +inf, the first ladder value is chosen and the
    pass goes on. *)
Theorem zero_peak_takes_first_ladder_value :
  ∀ cfg tk st t1 rest target,
    Acquisition.int_times cfg = t1 :: rest →
    Acquisition.target_int cfg = Exposure.Fin target →
    (0 < target)%Q →
    (0 < Acquisition.integration_time st)%Z →
    Acquisition.max_int tk = Exposure.Fin 0 →
    Acquisition.control_on tk = true →
    Acquisition.interrupt tk = None →
    Exposure.scale (Acquisition.target_int cfg) (Acquisition.max_int tk)
    = Exposure.PInf
    ∧ Exposure.new_int_time (Acquisition.int_times cfg)
        (Acquisition.target_int cfg) (Acquisition.max_int tk)
        (Acquisition.integration_time st) = Ok t1
    ∧ ∃ st', Acquisition.loop_pass cfg tk st = Acquisition.Continue st'
             ∧ Acquisition.integration_time st' = t1.
Proof.
  intros cfg tk st t1 rest target Hladder Htarget Hpos Htime Hpeak Hon Hint.
  rewrite Hladder, Htarget, Hpeak.
  destruct (new_int_time_zero_peak t1 rest target _ Hpos Htime) as [Hs Hn].
  split_and!; [done..|].
  unfold Acquisition.loop_pass, Acquisition.try_block, Acquisition.hit.
  rewrite Hint, Hon, Hladder, Htarget, Hpeak. simpl. rewrite Hn.
  eexists. split; [reflexivity|].
  unfold Acquisition.submit_job.
  destruct (_ <? 3)%nat; simpl; case_bool_decide as Hne; simpl; try done.
  all: by destruct (decide (t1 = Acquisition.integration_time st)).
Qed.

Lemma zero_peak_takes_first_ladder_value_witness :
  Exposure.new_int_time (50 :: [60; 70])%Z (Exposure.Fin 50000)
    (Exposure.Fin 0) 100 = Ok 50%Z.
Proof.
  refine (proj1 (proj2 (zero_peak_takes_first_ladder_value
            {| Acquisition.target_int := Exposure.Fin 50000;
               Acquisition.int_times := (50 :: [60; 70])%Z |}
            dark_tick (Acquisition.initial 100) 50%Z [60; 70]%Z 50000%Q
            eq_refl eq_refl _ _ eq_refl eq_refl eq_refl))); reflexivity.
Defined.

Lemma zero_peak_division_unguarded :
  Exposure.scale (Exposure.Fin 50000) (Exposure.Fin 0) = Exposure.PInf
  ∧ Acquisition.run default_config 100 [dark_tick]
    = Acquisition.Running
        {| Acquisition.i := 1; Acquisition.integration_time := 50;
           Acquisition.processes := [0%nat];
           Acquisition.trace :=
             [Acquisition.StartListener; Acquisition.GetSpectrum 0;
              Acquisition.UpdateIntegrationTime 50; Acquisition.Start 0] |}
  ∧ Acquisition.run
      {| Acquisition.target_int := Exposure.Fin 0;
         Acquisition.int_times := Exposure.arange 50 310 10 |}
      100 [dark_tick]
    = Acquisition.Crashed IndexError
        {| Acquisition.i := 0; Acquisition.integration_time := 100;
           Acquisition.processes := [];
           Acquisition.trace :=
             [Acquisition.StartListener; Acquisition.GetSpectrum 0] |}.
Proof. split_and!; by_evaluation. Qed.


(** ** The fit job and the ledger consumer *)

Section LedgerFacts.
Import Ledger.
Variable fmt : pyval -> string.

Lemma console_line_some (res : list pyval) :
  (12 <= length res)%nat → is_Some (console_line fmt res).
Proof.
  intros Hlen. unfold console_line.
  do 12 (destruct res as [|? res]; [simpl in Hlen; lia|]). by eexists.
Qed.

Lemma listen_records (records : list (list pyval)) (later : list qitem) :
  Forall (fun res => (12 <= length res)%nat) records →
  let run := listen fmt ((Res <$> records) ++ Kill :: later) in
  status run = Returned
  ∧ fops run = flat_map (row_ops fmt) records ++ [Close]
  ∧ unread run = later.
Proof.
  induction 1 as [|res records Hres _ IH]; [done|].
  destruct (console_line_some res Hres) as [line Hline].
  destruct res as [|r0 rest]; [simpl in Hres; lia|].
  cbn [fmap list_fmap app listen]. rewrite Hline. cbn [status fops unread].
  destruct IH as (-> & -> & ->). done.
Qed.

Lemma on_disk_go_rows (records : list (list pyval)) (more : list fileop)
    (disk buffer : list string) :
  on_disk_go (flat_map (row_ops fmt) records ++ more) disk buffer
  = match records with
    | [] => on_disk_go more disk buffer
    | _ => on_disk_go more
             (disk ++ buffer ++ (row_of fmt <$> records)) []
    end.
Proof.
  revert disk buffer. induction records as [|res records IH];
    intros disk buffer; [done|].
  cbn [flat_map row_ops app on_disk_go]. rewrite IH.
  destruct records as [|res' records]; [done|].
  rewrite app_nil_l, <- !app_assoc. done.
Qed.

Lemma written_rows (records : list (list pyval)) :
  written (flat_map (row_ops fmt) records) = row_of fmt <$> records.
Proof.
  induction records as [|res records IH]; [done|].
  unfold written in *.
  cbn [flat_map row_ops app omap list_omap fmap list_fmap]. by rewrite IH.
Qed.

End LedgerFacts.





(** ** Python strings *)

Section PyStrFacts.
Import PyStr.

Lemma lstrip_idemp (s : string) : lstrip (lstrip s) = lstrip s.
Proof.
  induction s as [|a s IH]; [done|]. simpl.
  destruct (isspace a) eqn:E; [done|]. simpl. by rewrite E.
Qed.

Lemma rstrip_idemp (s : string) : rstrip (rstrip s) = rstrip s.
Proof.
  induction s as [|a s IH]; [done|]. simpl.
  destruct (rstrip s) as [|b r] eqn:Er.
  - destruct (isspace a) eqn:E; [done|]. simpl. by rewrite E.
  - change (rstrip (String a (String b r))) with
      (match rstrip (String b r) with
       | EmptyString => if isspace a then EmptyString else String a EmptyString
       | r' => String a r'
       end).
    by rewrite IH.
Qed.

Lemma rstrip_lstrip (s : string) : rstrip (lstrip s) = lstrip (rstrip s).
Proof.
  induction s as [|a s IH]; [done|].
  cbn [lstrip rstrip]. destruct (isspace a) eqn:E.
  - rewrite IH. destruct (rstrip s) as [|b r]; [done|]. simpl. by rewrite E.
  - cbn [rstrip]. destruct (rstrip s) as [|b r]; simpl; by rewrite E.
Qed.

Lemma strip_idemp (s : string) : strip (strip s) = strip s.
Proof.
  unfold strip. rewrite <- rstrip_lstrip, lstrip_idemp.
  by rewrite rstrip_lstrip, rstrip_idemp.
Qed.
End PyStrFacts.

(** ** The sync client *)

Section PiSpecFacts.
Import PiSpec.

Lemma append_unseen_filter (loc_lines rem_lines : list string) :
  append_unseen loc_lines rem_lines
  = (bool_decide (filter (fun l => l ∉ loc_lines) rem_lines ≠ []),
     filter (fun l => l ∉ loc_lines) rem_lines).
Proof.
  unfold append_unseen.
  assert (∀ flag w,
    fold_left
      (fun '(updated_flag, w) line =>
         if bool_decide (line ∈ loc_lines) then (updated_flag, w)
         else (true, w ++ [line]))
      rem_lines (flag, w)
    = (flag || bool_decide (filter (fun l => l ∉ loc_lines) rem_lines ≠ []),
       w ++ filter (fun l => l ∉ loc_lines) rem_lines)) as H.
  { induction rem_lines as [|l rem_lines IH]; intros flag w; simpl.
    - by rewrite orb_false_r, app_nil_r.
    - rewrite filter_cons. destruct (decide (l ∈ loc_lines)) as [Hin|Hin].
      + rewrite bool_decide_true by done.
        rewrite decide_False by (intros Hn; exact (Hn Hin)). apply IH.
      + rewrite bool_decide_false by done.
        rewrite decide_True by done. rewrite IH, <- app_assoc. simpl.
        by rewrite orb_true_r. }
  rewrite H. done.
Qed.

Lemma last_lines_subseteq (n : nat) (f : list string) :
  last_lines n f ⊆ f.
Proof. apply subseteq_drop. Qed.

Lemma last_lines_app (n : nat) (f g : list string) :
  (n <= length g)%nat → last_lines n (f ++ g) = last_lines n g.
Proof.
  intros H. unfold last_lines. rewrite length_app, drop_app.
  rewrite drop_ge by lia. simpl. f_equal. lia.
Qed.

Lemma last_lines_app_short (n : nat) (f g : list string) :
  (length g <= n)%nat → last_lines n (f ++ g) = last_lines (n - length g) f ++ g.
Proof.
  intros H. unfold last_lines. rewrite length_app, drop_app.
  replace (length f + length g - n - length f)%nat with 0%nat by lia.
  simpl. f_equal. f_equal. lia.
Qed.

(** An incremental sync over a working link. *)
Lemma sync_incremental (buffer_len : nat) (w : World) (loc_file : list string) :
  local_ledger w = Some loc_file →
  default false (head (faults w)) = false →
  let unseen :=
    filter (fun l => l ∉ lines_of loc_file)
           (lines_of (last_lines buffer_len (default [] (remote_ledger w)))) in
  ∃ w', sync_so2_data buffer_len w = (Ok (bool_decide (unseen ≠ [])), w')
        ∧ local_ledger w' = Some (loc_file ++ unseen)
        ∧ remote w' = remote w
        ∧ faults w' = tail (faults w).
Proof.
  intros Hloc Hup unseen. unfold sync_so2_data, bind, get.
  unfold local_ledger in Hloc. rewrite Hloc.
  unfold run_command. simpl. rewrite Hup.
  rewrite append_unseen_filter. eexists. split; [reflexivity|].
  split_and!; [|done..]. unfold local_ledger. simpl. apply lookup_insert_eq.
Qed.

(** A first sync over a working link. *)
Lemma sync_bootstrap (buffer_len : nat) (w : World) (rem_file : list string) :
  local_ledger w = None →
  default false (head (faults w)) = false →
  remote_ledger w = Some rem_file →
  ∃ w', sync_so2_data buffer_len w = (Ok true, w')
        ∧ local_ledger w' = Some rem_file
        ∧ remote w' = remote w
        ∧ faults w' = tail (faults w)
        ∧ calls w' = calls w ++ [CopyRemoteFile so2_output].
Proof.
  intros Hloc Hup Hrem. unfold sync_so2_data, bind, get.
  unfold local_ledger in Hloc. rewrite Hloc.
  unfold copy_so2_data, copy_remote_file. simpl. rewrite Hup.
  unfold remote_ledger in Hrem. simpl in Hrem. rewrite Hrem.
  eexists. split; [reflexivity|].
  split_and!; [|done..]. unfold local_ledger. simpl. apply lookup_insert_eq.
Qed.

Lemma filter_none {A} (P : A → Prop) `{∀ x, Decision (P x)} (l : list A) :
  (∀ x, x ∈ l → ¬ P x) → filter P l = [].
Proof.
  induction l as [|x l IH]; intros Hl; [done|].
  rewrite filter_cons_False by (apply Hl; left).
  apply IH. intros y Hy. apply Hl. by right.
Qed.

Lemma filter_all {A} (P : A → Prop) `{∀ x, Decision (P x)} (l : list A) :
  (∀ x, x ∈ l → P x) → filter P l = l.
Proof.
  induction l as [|x l IH]; intros Hl; [done|].
  rewrite filter_cons_True by (apply Hl; left).
  f_equal. apply IH. intros y Hy. apply Hl. by right.
Qed.

Lemma lines_of_app (f g : list string) :
  lines_of (f ++ g) = lines_of f ++ lines_of g.
Proof. apply fmap_app. Qed.

Lemma lines_of_idemp (f : list string) : lines_of (lines_of f) = lines_of f.
Proof.
  unfold lines_of. rewrite <- list_fmap_compose. apply list_fmap_ext.
  intros i l _. apply strip_idemp.
Qed.

Lemma lines_of_stripped (loc : list string) (ls : list string) :
  lines_of (filter (fun l => l ∉ loc) (lines_of ls))
  = filter (fun l => l ∉ loc) (lines_of ls).
Proof.
  unfold lines_of. induction ls as [|l ls IH]; [done|].
  rewrite fmap_cons, filter_cons. case_decide; [|done].
  rewrite fmap_cons, IH. by rewrite strip_idemp.
Qed.

Lemma elem_of_lines_of_last (n : nat) (f : list string) (l : string) :
  l ∈ lines_of (last_lines n f) → l ∈ lines_of f.
Proof.
  unfold lines_of. intros (x & -> & Hx)%list_elem_of_fmap.
  apply list_elem_of_fmap_2. by apply (last_lines_subseteq n).
Qed.

(** Running the sync again, with the remote ledger as it was, finds
    nothing to append. *)
Lemma sync_again (buffer_len : nat) (w : World) (loc_file rem_file : list string) :
  local_ledger w = Some loc_file →
  remote_ledger w = Some rem_file →
  default false (head (faults w)) = false →
  (∀ l, l ∈ lines_of (last_lines buffer_len rem_file) → l ∈ lines_of loc_file) →
  ∃ w', sync_so2_data buffer_len w = (Ok false, w')
        ∧ local_ledger w' = Some loc_file.
Proof.
  intros Hloc Hrem Hup Hseen.
  destruct (sync_incremental buffer_len w loc_file Hloc Hup)
    as (w' & Hrun & Hloc' & _).
  rewrite Hrem in Hrun, Hloc'. simpl in Hrun, Hloc'.
  rewrite filter_none in Hrun, Hloc' by (intros l Hl Hn; by apply Hn, Hseen).
  rewrite app_nil_r in Hloc'. exists w'. split; [|done].
  rewrite Hrun. by rewrite bool_decide_false by (by intros Hn).
Qed.

End PiSpecFacts.

(** C3: over a working link, [sync_so2_data] returns [True] exactly when
    it changed the local replica.  Without a local replica it copies the
    whole remote ledger and returns [True]; with one, it appends the
    lines of the remote tail that the replica does not hold and returns
    [True] exactly when there is such a line.  A second sync, the remote
    ledger unchanged, appends nothing and returns [False]. *)
Theorem sync_reports_updated_iff_changed :
  ∀ (buffer_len : nat) (w : PiSpec.World) (rem_file : list string),
    PiSpec.faults w = [] →
    PiSpec.remote_ledger w = Some rem_file →
    ∃ updated w',
      PiSpec.sync_so2_data buffer_len w = (Ok updated, w')
      ∧ PiSpec.remote w' = PiSpec.remote w
      ∧ (updated = true ↔ PiSpec.local_ledger w' ≠ PiSpec.local_ledger w)
      ∧ (PiSpec.local_ledger w = None →
           updated = true ∧ PiSpec.local_ledger w' = Some rem_file)
      ∧ (∀ loc_file, PiSpec.local_ledger w = Some loc_file →
           let unseen :=
             filter (fun l => l ∉ PiSpec.lines_of loc_file)
                    (PiSpec.lines_of (PiSpec.last_lines buffer_len rem_file)) in
           PiSpec.local_ledger w' = Some (loc_file ++ unseen)
           ∧ (updated = true ↔ unseen ≠ []))
      ∧ ∃ w'', PiSpec.sync_so2_data buffer_len w' = (Ok false, w'')
               ∧ PiSpec.local_ledger w'' = PiSpec.local_ledger w'.
Proof.
  intros buffer_len w rem_file Hfaults Hrem.
  assert (default false (head (PiSpec.faults w)) = false) as Hup
    by (by rewrite Hfaults).
  destruct (PiSpec.local_ledger w) as [loc_file|] eqn:Hloc.
  - destruct (sync_incremental buffer_len w loc_file Hloc Hup)
      as (w' & Hrun & Hloc' & Hrem' & Hfaults').
    rewrite Hrem in Hrun, Hloc'. simpl in Hrun, Hloc'.
    set (unseen := filter (fun l => l ∉ PiSpec.lines_of loc_file)
                     (PiSpec.lines_of (PiSpec.last_lines buffer_len rem_file)))
      in *.
    exists (bool_decide (unseen ≠ [])), w'.
    split_and!; [done|done| |done| |].
    + rewrite bool_decide_eq_true, Hloc'. split.
      * intros Hne [=Heq]. apply Hne.
        apply (f_equal length) in Heq. rewrite length_app in Heq.
        apply length_zero_iff_nil. lia.
      * intros Hne ->. by rewrite app_nil_r in Hne.
    + intros ? [= <-]. split; [done|]. apply bool_decide_eq_true.
    + destruct (sync_again buffer_len w' (loc_file ++ unseen) rem_file)
        as (w'' & Hagain & Hloc''); [done| | |..].
      * unfold PiSpec.remote_ledger in *. by rewrite Hrem'.
      * by rewrite Hfaults', Hfaults.
      * intros l Hl. rewrite lines_of_app.
        destruct (decide (l ∈ PiSpec.lines_of loc_file)) as [?|Hnew];
          [by apply elem_of_app; left|].
        apply elem_of_app. right. unfold unseen.
        rewrite lines_of_stripped. by apply list_elem_of_filter.
      * exists w''. by rewrite Hloc'.
  - destruct (sync_bootstrap buffer_len w rem_file Hloc Hup Hrem)
      as (w' & Hrun & Hloc' & Hrem' & Hfaults' & _).
    exists true, w'. split_and!; [done|done| |done|done|].
    + by rewrite Hloc'.
    + destruct (sync_again buffer_len w' rem_file rem_file)
        as (w'' & Hagain & Hloc''); [done| | |..].
      * unfold PiSpec.remote_ledger in *. by rewrite Hrem'.
      * by rewrite Hfaults', Hfaults.
      * apply elem_of_lines_of_last.
      * exists w''. by rewrite Hloc'.
Qed.


Section SyncGrowth.
Import PiSpec.

Lemma remote_ledger_grow (rows : list string) (w : World) :
  remote_ledger (grow rows w)
  = Some (default [] (remote_ledger w) ++ rows).
Proof. unfold remote_ledger, grow. simpl. apply lookup_insert_eq. Qed.

(** Lines that are neither in the local replica nor among the last
    [buffer_len] lines of the remote ledger, nor appended later, never
    reach the local replica. *)
Lemma cycles_keep_out (buffer_len : nat) (missed : list string)
    (growth : list (list string)) :
  ∀ (w : World) (before window loc_file : list string),
    faults w = [] →
    local_ledger w = Some loc_file →
    remote_ledger w = Some (before ++ window) →
    (buffer_len <= length window)%nat →
    (∀ l, l ∈ missed → l ∉ lines_of loc_file) →
    (∀ l, l ∈ missed → l ∉ lines_of window) →
    (∀ l, l ∈ missed → l ∉ lines_of (concat growth)) →
    ∃ loc_file',
      local_ledger (cycles buffer_len growth w) = Some loc_file'
      ∧ ∀ l, l ∈ missed → l ∉ lines_of loc_file'.
Proof.
  induction growth as [|rows growth IH];
    intros w before window loc_file Hfaults Hloc Hrem Hlen Hout Hwin Hlater.
  { exists loc_file. done. }
  cbn [cycles].
  set (w1 := grow rows w).
  assert (remote_ledger w1 = Some (before ++ (window ++ rows))) as Hrem1.
  { unfold w1. rewrite remote_ledger_grow, Hrem. simpl. by rewrite app_assoc. }
  destruct (sync_incremental buffer_len w1 loc_file) as
    (w2 & Hrun & Hloc2 & Hrem2 & Hfaults2); [done|simpl; by rewrite Hfaults|].
  rewrite Hrun. cbn [snd]. rewrite Hrem1 in Hloc2. simpl in Hloc2.
  rewrite last_lines_app in Hloc2 by (rewrite length_app; lia).
  simpl in Hlater. rewrite lines_of_app in Hlater.
  eapply (IH w2 before (window ++ rows)); [| exact Hloc2 | | | | |].
  - rewrite Hfaults2. simpl. by rewrite Hfaults.
  - unfold remote_ledger in *. by rewrite Hrem2.
  - rewrite length_app. lia.
  - intros l Hl. rewrite lines_of_app, lines_of_stripped.
    intros [?|[_ Hin]%list_elem_of_filter]%elem_of_app; [by eapply Hout|].
    apply elem_of_lines_of_last in Hin. rewrite lines_of_app in Hin.
    apply elem_of_app in Hin as [?|?]; [by eapply Hwin|].
    eapply Hlater; [done|]. apply elem_of_app. by left.
  - intros l Hl. rewrite lines_of_app.
    intros [?|?]%elem_of_app; [by eapply Hwin|].
    eapply Hlater; [done|]. apply elem_of_app. by left.
  - intros l Hl Hin. eapply Hlater; [done|]. apply elem_of_app. by right.
Qed.

End SyncGrowth.

(** C2 as the code has it.  Take a sync cycle over a working link whose
    local replica holds, as [sync_so2_data] reads lines, the lines of the
    remote ledger as it stood before it grew by the rows [new_rows], and
    let the lines of the remote ledger be pairwise distinct.  If at most
    [buffer_len] rows were added, the cycle appends each of them once, in
    order, and the replica then holds the same lines as the remote
    ledger.  If more were added, the cycle appends the last [buffer_len]
    of them, and the others, the oldest ones, are the new lines that the
    replica lacks; they stay out of the replica in every later cycle. *)
Theorem sync_converges_or_leaves_gap :
  ∀ (buffer_len : nat) (w : PiSpec.World)
    (old_rows new_rows loc_file : list string),
    PiSpec.faults w = [] →
    PiSpec.remote_ledger w = Some (old_rows ++ new_rows) →
    PiSpec.local_ledger w = Some loc_file →
    (∀ l, l ∈ PiSpec.lines_of loc_file ↔ l ∈ PiSpec.lines_of old_rows) →
    NoDup (PiSpec.lines_of (old_rows ++ new_rows)) →
    ∃ appended w',
      PiSpec.sync_so2_data buffer_len w
      = (Ok (bool_decide (appended ≠ [])), w')
      ∧ PiSpec.local_ledger w' = Some (loc_file ++ appended)
      ∧ ((length new_rows <= buffer_len)%nat →
           appended = PiSpec.lines_of new_rows
           ∧ ∀ l, l ∈ PiSpec.lines_of (loc_file ++ appended)
                  ↔ l ∈ PiSpec.lines_of (old_rows ++ new_rows))
      ∧ ((buffer_len < length new_rows)%nat →
           let gap := (length new_rows - buffer_len)%nat in
           appended = PiSpec.lines_of (drop gap new_rows)
           ∧ length (take gap new_rows) = gap
           ∧ (∀ l, l ∈ PiSpec.lines_of new_rows →
                   (l ∉ PiSpec.lines_of (loc_file ++ appended)
                    ↔ l ∈ PiSpec.lines_of (take gap new_rows)))
           ∧ ∀ growth,
               NoDup (PiSpec.lines_of
                        (old_rows ++ new_rows ++ concat growth)) →
               ∃ loc_file',
                 PiSpec.local_ledger (PiSpec.cycles buffer_len growth w')
                 = Some loc_file'
                 ∧ ∀ l, l ∈ PiSpec.lines_of (take gap new_rows) →
                        l ∉ PiSpec.lines_of loc_file').
Proof.
  intros buffer_len w old_rows new_rows loc_file Hfaults Hrem Hloc Hsame Hnd.
  destruct (sync_incremental buffer_len w loc_file Hloc) as
    (w' & Hrun & Hloc' & Hrem' & Hfaults'); [by rewrite Hfaults|].
  rewrite Hrem in Hrun, Hloc'. simpl in Hrun, Hloc'.
  rewrite Hfaults in Hfaults'. simpl in Hfaults'.
  eexists _, w'. split; [exact Hrun|]. split; [exact Hloc'|].
  rewrite lines_of_app in Hnd. apply NoDup_app in Hnd as (_ & Hfresh & Hnd).
  assert (∀ l, l ∈ PiSpec.lines_of new_rows → l ∉ PiSpec.lines_of loc_file)
    as Hnew.
  { intros l Hl Hin. apply Hsame in Hin. by eapply Hfresh. }
  split.
  - intros Hshort.
    assert (filter (fun l => l ∉ PiSpec.lines_of loc_file)
              (PiSpec.lines_of (PiSpec.last_lines buffer_len
                                  (old_rows ++ new_rows)))
            = PiSpec.lines_of new_rows) as ->.
    { rewrite last_lines_app_short, lines_of_app, filter_app by done.
      rewrite filter_none, filter_all; [done|done|].
      intros l Hl Hn. apply Hn, Hsame. by eapply elem_of_lines_of_last. }
    split; [done|]. intros l.
    rewrite !lines_of_app, lines_of_idemp, !elem_of_app, Hsame. done.
  - intros Hlong gap.
    assert (filter (fun l => l ∉ PiSpec.lines_of loc_file)
              (PiSpec.lines_of (PiSpec.last_lines buffer_len
                                  (old_rows ++ new_rows)))
            = PiSpec.lines_of (drop gap new_rows)) as Happ.
    { rewrite last_lines_app by lia. unfold PiSpec.last_lines. fold gap.
      apply filter_all. intros l Hl. apply Hnew.
      unfold PiSpec.lines_of in *. rewrite fmap_drop in Hl.
      by apply (subseteq_drop gap). }
    rewrite Happ in *.
    rewrite <- (take_drop gap new_rows) in Hnd at 1.
    rewrite lines_of_app in Hnd. apply NoDup_app in Hnd as (_ & Hdisj & _).
    split_and!; [done|apply length_take_le; lia| |].
    + intros l Hl. rewrite lines_of_app, lines_of_idemp, elem_of_app. split.
      * intros Hout. rewrite <- (take_drop gap new_rows), lines_of_app in Hl.
        apply elem_of_app in Hl as [?|?]; [done|]. exfalso. apply Hout. by right.
      * intros Hin [?|?]; [by eapply Hnew|by eapply Hdisj].
    + intros growth Hall.
      rewrite app_assoc, lines_of_app in Hall.
      apply NoDup_app in Hall as (_ & Hlater & _).
      eapply (cycles_keep_out buffer_len _ growth w'
                (old_rows ++ take gap new_rows) (drop gap new_rows));
        [done|exact Hloc'| | | | |].
      * unfold PiSpec.remote_ledger in *. rewrite Hrem', Hrem.
        by rewrite <- app_assoc, take_drop.
      * rewrite length_drop. lia.
      * intros l Hl. rewrite lines_of_app, lines_of_idemp.
        intros [?|?]%elem_of_app; [|by eapply Hdisj].
        eapply Hnew; [|done]. rewrite <- (take_drop gap new_rows), lines_of_app.
        apply elem_of_app. by left.
      * intros l Hl. by apply Hdisj.
      * intros l Hl. apply Hlater. rewrite lines_of_app. apply elem_of_app.
        right. rewrite <- (take_drop gap new_rows), lines_of_app.
        apply elem_of_app. by left.
Qed.

Section TransportFacts.
Import PiSpec.

Lemma orderly_ret {A} (a : A) : orderly (ret a).
Proof. intros w. exists []. simpl. rewrite app_nil_r. split_and!; [done..|]. intros; lia. Qed.

Lemma orderly_get : orderly get.
Proof. intros w. exists []. simpl. rewrite app_nil_r. split_and!; [done..|]. intros; lia. Qed.

Lemma orderly_modify (f : World → World) :
  (∀ w, calls (f w) = calls w ∧ faults (f w) = faults w) →
  orderly (modify f).
Proof.
  intros Hf w. exists []. simpl. destruct (Hf w) as [-> ->].
  rewrite app_nil_r. split_and!; [done..|]. intros; lia.
Qed.

Lemma orderly_bind {A B} (m : M A) (k : A → M B) :
  orderly m → (∀ a, orderly (k a)) → orderly (bind m k).
Proof.
  intros Hm Hk w. destruct (Hm w) as (cs1 & Hc1 & Hf1 & Hstop1).
  unfold bind. destruct (m w) as [[a|e] w1]; simpl in *.
  - destruct (Hk a w1) as (cs2 & Hc2 & Hf2 & Hstop2).
    exists (cs1 ++ cs2). rewrite Hc2, Hc1, Hf2, Hf1, drop_drop, length_app.
    split_and!; [by rewrite app_assoc|done|].
    intros j Hj Htrue. destruct (decide (j < length cs1)%nat) as [Hlt|Hge].
    + destruct (Hstop1 j Hlt Htrue) as (_ & e & [=]).
    + destruct (Hstop2 (j - length cs1)%nat) as (Hlen & e & He); [lia| |].
      * rewrite Hf1, lookup_drop. by replace (length cs1 + (j - length cs1))%nat with j by lia.
      * split; [lia|by exists e].
  - exists cs1. split_and!; [done..|]. intros j Hj Htrue.
    destruct (Hstop1 j Hj Htrue) as (Hlen & _). split; [done|by exists e].
Qed.

Lemma orderly_call {A} (c : call) (after : World → result A * World) :
  (∀ w, calls (after w).2 = calls w ∧ faults (after w).2 = faults w) →
  ∀ (e : exn),
    orderly (fun w => let '(fault, w') := dial c w in
                      if fault then (Raise e, w') else after w').
Proof.
  intros Hafter e w. exists [c]. simpl.
  destruct (faults w) as [|[] fs] eqn:Hfs; simpl.
  - destruct (Hafter (dial c w).2) as [Hc Hf]. unfold dial in *. simpl in *.
    rewrite Hfs in *. simpl in *. rewrite Hc, Hf. split_and!; [done..|].
    intros j Hj Hnone. by rewrite lookup_nil in Hnone.
  - split_and!; [done..|]. intros j Hj _. split; [lia|by eexists].
  - destruct (Hafter (dial c w).2) as [Hc Hf]. unfold dial in *. simpl in *.
    rewrite Hfs in *. simpl in *. rewrite Hc, Hf. split_and!; [done..|].
    intros [|j] Hj Htrue; [done|lia].
Qed.

Lemma orderly_run_command (c : command) : orderly (run_command c).
Proof.
  unfold run_command.
  apply (orderly_call (RunCommand c) (fun w' => (Ok (stdout c w'), w'))).
  done.
Qed.

Lemma orderly_copy_remote_file (p : path) : orderly (copy_remote_file p).
Proof.
  unfold copy_remote_file.
  apply (orderly_call (CopyRemoteFile p)
           (fun w' => match read (remote w') p with
                      | None => (Raise CopyFailed, w')
                      | Some f => (Ok tt, set_local (write p f (local w')) w')
                      end)).
  intros w. by destruct (read _ _).
Qed.

Lemma orderly_for_each {A} (xs : list A) (body : A → M unit) :
  (∀ x, orderly (body x)) → orderly (for_each xs body).
Proof.
  intros Hbody. induction xs as [|x xs IH]; simpl.
  - apply orderly_ret.
  - apply orderly_bind; [apply Hbody|]. intros _. apply IH.
Qed.

Create HintDb orderly.
#[local] Hint Resolve orderly_ret orderly_get orderly_run_command
  orderly_copy_remote_file : orderly.

Lemma orderly_pull_log : orderly pull_log.
Proof. unfold pull_log. auto with orderly. Qed.

Lemma orderly_sync_so2_data (buffer_len : nat) :
  orderly (sync_so2_data buffer_len).
Proof.
  unfold sync_so2_data. apply orderly_bind; [auto with orderly|].
  intros w. destruct (read (local w) so2_output) as [loc_file|].
  - apply orderly_bind; [auto with orderly|]. intros output.
    destruct (append_unseen _ _) as [updated_flag new].
    apply orderly_bind; [by apply orderly_modify|auto with orderly].
  - apply orderly_bind; [apply orderly_copy_remote_file|auto with orderly].
Qed.

Lemma orderly_sync_spectra : orderly sync_spectra.
Proof.
  unfold sync_spectra. apply orderly_bind; [auto with orderly|].
  intros output. apply orderly_bind; [auto with orderly|]. intros w.
  apply orderly_bind; [|auto with orderly].
  apply orderly_for_each. auto with orderly.
Qed.

Lemma orderly_propagates {A} (op : M A) : orderly op → propagates op.
Proof.
  intros Hop w k Htrue Hk. unfold made in *.
  destruct (Hop w) as (cs & Hc & _ & Hstop).
  rewrite Hc, length_app in *.
  destruct (Hstop k) as (Hlen & He); [lia|done|]. split; [done|lia].
Qed.

(** The loop of [sync_results] tries each file once and goes on
    whatever the copy does. *)
Lemma sync_results_loop (w0 : World) (files : list string) :
  ∀ (synced_files : list string) (w : World),
    ∃ synced_files' w',
      for_each_with files synced_files
        (fun synced_files file =>
           try_except
             (copy_remote_file (InMeas file) ;;;
              ret (synced_files ++ [local_meas_path w0 file]))
             (ret synced_files)) w
      = (Ok synced_files', w')
      ∧ calls w' = calls w ++ (CopyRemoteFile ∘ InMeas <$> files)
      ∧ synced_files' ⊆ synced_files ++ (local_meas_path w0 <$> files).
Proof.
  induction files as [|file files IH]; intros synced_files w.
  { exists synced_files, w. simpl. rewrite !app_nil_r. done. }
  cbn [for_each_with]. unfold bind at 1.
  assert (∃ s1 w1,
             try_except
               (copy_remote_file (InMeas file) ;;;
                ret (synced_files ++ [local_meas_path w0 file]))
               (ret synced_files) w = (Ok s1, w1)
             ∧ calls w1 = calls w ++ [CopyRemoteFile (InMeas file)]
             ∧ s1 ⊆ synced_files ++ [local_meas_path w0 file])
    as (s1 & w1 & -> & Hc1 & Hs1).
  { unfold try_except, bind, copy_remote_file, ret. simpl.
    destruct (default false (head (faults w))).
    - eexists _, _. split; [reflexivity|]. split; [done|].
      intros x Hx. apply elem_of_app. by left.
    - destruct (meas_dir (remote w) !! file).
      + eexists _, _. split; [reflexivity|]. done.
      + eexists _, _. split; [reflexivity|]. split; [done|].
        intros x Hx. apply elem_of_app. by left. }
  destruct (IH s1 w1) as (s2 & w2 & -> & Hc2 & Hs2).
  exists s2, w2. split; [done|]. rewrite Hc2, Hc1, <- app_assoc.
  split; [done|]. intros x Hx. apply Hs2 in Hx. rewrite fmap_cons.
  apply elem_of_app in Hx as [Hx|Hx].
  - apply Hs1 in Hx. apply elem_of_app in Hx as [?|?%list_elem_of_singleton].
    + apply elem_of_app. by left.
    + subst. apply elem_of_app. right. left.
  - apply elem_of_app. right. by right.
Qed.

End TransportFacts.


Lemma sync_reports_updated_iff_changed_witness :
  ∃ updated w',
    PiSpec.sync_so2_data 100 (ledger_world ["h"; "a"] (Some ["h"]))
    = (Ok updated, w')
    ∧ PiSpec.local_ledger w' = Some ["h"; "a"]
    ∧ updated = true.
Proof.
  destruct (sync_reports_updated_iff_changed 100
              (ledger_world ["h"; "a"] (Some ["h"])) ["h"; "a"])
    as (updated & w' & Hrun & _ & _ & _ & Hinc & _).
  - reflexivity.
  - by_evaluation.
  - destruct (Hinc ["h"]) as [Hloc Hup]; [by_evaluation|].
    exists updated, w'. split_and!; [exact Hrun|exact Hloc|].
    apply Hup. vm_compute. discriminate.
Defined.

Lemma sync_converges_or_leaves_gap_witness :
  ∃ appended w',
    PiSpec.sync_so2_data 1 (ledger_world ["h"; "a"; "b"] (Some ["h"]))
    = (Ok (bool_decide (appended ≠ [])), w')
    ∧ PiSpec.local_ledger w' = Some (["h"] ++ appended)
    ∧ appended = ["b"].
Proof.
  destruct (sync_converges_or_leaves_gap 1
              (ledger_world ["h"; "a"; "b"] (Some ["h"]))
              ["h"] ["a"; "b"] ["h"])
    as (appended & w' & Hrun & Hloc & _ & Hgap).
  - reflexivity.
  - by_evaluation.
  - by_evaluation.
  - done.
  - by_decision.
  - destruct Hgap as (Happ & _); [simpl; lia|].
    exists appended, w'. split_and!; [exact Hrun|exact Hloc|exact Happ].
Defined.

(** The statement of C2 fails for a replica that already lacks a line of
    the remote ledger, and for a ledger that repeats a line. *)
Lemma sync_claim_needs_in_sync_distinct_lines :
  (PiSpec.local_ledger
     (PiSpec.sync_so2_data 1
        (ledger_world ["h"; "a"; "b"; "c"] (Some ["h"; "b"]))).2
   = Some ["h"; "b"; "c"]
   ∧ ¬ (∀ l, l ∈ PiSpec.lines_of ["h"; "b"; "c"]
             ↔ l ∈ PiSpec.lines_of ["h"; "a"; "b"; "c"]))
  ∧ (PiSpec.local_ledger
       (PiSpec.sync_so2_data 1
          (ledger_world (["h"; "a"] ++ ["a"; "b"; "a"]) (Some ["h"; "a"]))).2
     = Some ["h"; "a"]
     ∧ ¬ (∀ l, l ∈ PiSpec.lines_of ["a"; "b"; "a"] →
               (l ∉ PiSpec.lines_of ["h"; "a"]
                ↔ l ∈ PiSpec.lines_of (take 2 ["a"; "b"; "a"])))).
Proof.
  split; (split; [by_evaluation|]).
  - intros H. specialize (H "a").
    assert ("a" ∈ PiSpec.lines_of ["h"; "b"; "c"]) as Hin.
    { apply H. by_decision. }
    revert Hin. by_decision.
  - intros H. specialize (H "a").
    assert ("a" ∉ PiSpec.lines_of ["h"; "a"]) as Hout.
    { apply H; by_decision. }
    revert Hout. by_decision.
Qed.



(** ** The log mirror *)

(** C8: on the first cycle the box is empty, [toPlainText().split('\n')]
    has one element, and the first log line is passed over; the box then
    holds one line fewer than were seen, so the next cycle appends the
    last line again. *)
Theorem update_log_skips_first_line_and_repeats_last :
  let log_text := ["12:00:00 - PiSpec ready!"; "12:00:09 - Program ended"] in
  (∀ first rest,
      Monitor.update_log (first :: rest) Monitor.empty_box
      = fold_left (fun b line => Monitor.appendPlainText (PyStr.strip line) b)
                  rest Monitor.empty_box)
  ∧ Monitor.monitor [log_text] Monitor.empty_box
    = ["12:00:09 - Program ended"]
  ∧ Monitor.monitor [log_text; log_text] Monitor.empty_box
    = ["12:00:09 - Program ended"; "12:00:09 - Program ended"]
  ∧ Monitor.monitor [log_text; log_text; log_text] Monitor.empty_box
    = ["12:00:09 - Program ended"; "12:00:09 - Program ended"].
Proof. split_and!; [done|by_evaluation..]. Qed.

(* ===================================================================== *)
(** * Part III: further properties of the code                            *)
(* ===================================================================== *)

(** ** The ladder and the exposure computation *)

Section LadderFacts.
Import Exposure.

Lemma lookup_arange (start stop step : Z) (i : nat) (x : Z) :
  (0 < step)%Z →
  arange start stop step !! i = Some x
  ↔ x = (start + Z.of_nat i * step)%Z ∧ (x < stop)%Z.
Proof.
  intros Hstep. unfold arange. rewrite list_lookup_fmap.
  set (n := ((stop - start + step - 1) / step)%Z).
  assert (n * step <= stop - start + step - 1)%Z as Hlow.
  { rewrite Z.mul_comm. apply Z.mul_div_le. lia. }
  assert (stop - start + step - 1 < (n + 1) * step)%Z as Hhigh.
  { pose proof (Z.mul_succ_div_gt (stop - start + step - 1) step Hstep).
    fold n in H. lia. }
  split.
  - intros Hi. destruct (seqZ 0 n !! i) as [k|] eqn:Hk; [|done].
    apply lookup_seqZ in Hk as [-> Hlt]. injection Hi as <-.
    split; [lia|]. nia.
  - intros [-> Hlt]. rewrite lookup_seqZ_lt; [simpl; f_equal; lia|]. nia.
Qed.

Lemma first_true_raise (mask : list bool) (e : exn) :
  first_true mask = Raise e → e = IndexError.
Proof.
  induction mask as [|[] mask IH]; simpl; [congruence|done|].
  destruct (first_true mask); [done|]. intros [= <-]. by apply IH.
Qed.

Lemma first_true_lookup (mask : list bool) (idx : nat) :
  first_true mask = Ok idx → mask !! idx = Some true.
Proof.
  revert idx. induction mask as [|[] mask IH]; intros idx; simpl; [done| |].
  - by intros [= <-].
  - destruct (first_true mask) as [j|]; [|done]. intros [= <-]. by apply IH.
Qed.

Lemma first_true_all_false (mask : list bool) :
  Forall (fun b => b = false) mask → first_true mask = Raise IndexError.
Proof.
  induction 1 as [|b mask -> _ IH]; [done|]. simpl. by rewrite IH.
Qed.

End LadderFacts.

(** X1: the ladder built from the settings starts at [MinIntTime], holds
    exactly the values [MinIntTime + k * IntTimeStep] up to its top, and
    its top lies in [[MaxIntTime, MaxIntTime + IntTimeStep)]: it is
    [MaxIntTime] exactly when the step divides the range, and goes beyond
    [MaxIntTime] otherwise. *)
Theorem ladder_reaches_or_overshoots_max :
  ∀ (config : gmap string Settings.yaml) (lo hi step : Z),
    Settings.int_setting config "MinIntTime" = Some lo →
    Settings.int_setting config "MaxIntTime" = Some hi →
    Settings.int_setting config "IntTimeStep" = Some step →
    (0 < step)%Z → (lo <= hi)%Z →
    ∃ ladder top,
      Settings.int_times config = Some ladder
      ∧ head ladder = Some lo
      ∧ last ladder = Some top
      ∧ (hi <= top < hi + step)%Z
      ∧ (top = hi ↔ ((hi - lo) mod step = 0)%Z)
      ∧ ∀ x, x ∈ ladder ↔ (lo <= x <= top)%Z ∧ ((x - lo) mod step = 0)%Z.
Proof.
  intros config lo hi step Hlo Hhi Hstepv Hstep Hle.
  unfold Settings.int_times. rewrite Hlo, Hhi, Hstepv. simpl.
  set (ladder := Exposure.arange lo (hi + step) step).
  set (n := ((hi + step - lo + step - 1) / step)%Z).
  assert (length ladder = Z.to_nat n) as Hlen
    by (unfold ladder, Exposure.arange; by rewrite length_fmap, length_seqZ).
  assert (n * step <= hi + step - lo + step - 1)%Z as Hlow.
  { rewrite Z.mul_comm. apply Z.mul_div_le. lia. }
  assert (hi + step - lo + step - 1 < (n + 1) * step)%Z as Hhigh.
  { pose proof (Z.mul_succ_div_gt (hi + step - lo + step - 1) step Hstep).
    fold n in H. lia. }
  assert (1 <= n)%Z as Hn by nia.
  set (top := (lo + (n - 1) * step)%Z).
  assert (hi <= top < hi + step)%Z as Htop by (unfold top; nia).
  assert (∀ x, x ∈ ladder ↔ (lo <= x <= top)%Z ∧ ((x - lo) mod step = 0)%Z)
    as Hmem.
  { intros x. rewrite list_elem_of_lookup. split.
    - intros [i Hi]. apply lookup_arange in Hi as [-> Hlt]; [|done].
      replace (lo + Z.of_nat i * step - lo)%Z with (Z.of_nat i * step)%Z by lia.
      rewrite Z_mod_mult. split; [|done].
      assert (Z.of_nat i < n)%Z by nia. unfold top. nia.
    - intros [[Hx1 Hx2] Hmod]. exists (Z.to_nat ((x - lo) / step)).
      apply lookup_arange; [done|].
      assert (0 <= (x - lo) / step)%Z by (apply Z.div_pos; lia).
      rewrite Z2Nat.id by done.
      pose proof (Z.div_mod (x - lo) step ltac:(lia)) as Hdm.
      rewrite Hmod in Hdm. split; lia. }
  exists ladder, top. split_and!; [done| | |lia|lia| |done].
  - rewrite head_lookup. apply lookup_arange; [done|]. lia.
  - rewrite last_lookup, Hlen. apply lookup_arange; [done|].
    unfold top. split; [|lia]. f_equal. f_equal.
    rewrite Nat2Z.inj_pred by lia. lia.
  - split.
    + intros Heq. rewrite <- Heq. unfold top.
      replace (lo + (n - 1) * step - lo)%Z with ((n - 1) * step)%Z by lia.
      apply Z_mod_mult.
    + intros Hmod.
      pose proof (Z.div_mod (hi - lo) step ltac:(lia)) as Hdm.
      rewrite Hmod in Hdm. set (q := ((hi - lo) / step)%Z) in *.
      assert (n - 1 - q = 0)%Z by (unfold top in Htop; nia).
      unfold top. nia.
Qed.

Lemma ladder_reaches_or_overshoots_max_witness :
  ∃ ladder,
    Settings.int_times (Settings.config (Some {[ "MaxIntTime" := Settings.YInt 295 ]}))
    = Some ladder
    ∧ last ladder = Some 300%Z.
Proof.
  destruct (ladder_reaches_or_overshoots_max
              (Settings.config (Some {[ "MaxIntTime" := Settings.YInt 295 ]}))
              50 295 10) as (ladder & top & Hl & _ & Hlast & Htop & _ & Hmem).
  - by_evaluation.
  - by_evaluation.
  - by_evaluation.
  - lia.
  - lia.
  - exists ladder. split; [done|]. rewrite Hlast. f_equal.
    assert (top ∈ ladder) as Hin by (by eapply last_Some_elem_of).
    apply Hmem in Hin as [_ Hmod].
    assert (top = 295 ∨ top = 296 ∨ top = 297 ∨ top = 298 ∨ top = 299
            ∨ top = 300 ∨ top = 301 ∨ top = 302 ∨ top = 303 ∨ top = 304)%Z
      as Hcases by lia.
    destruct Hcases as [->|[->|[->|[->|[->|[->|[->|[->|[->| ->]]]]]]]]];
      vm_compute in Hmod; congruence.
Defined.

(** X2: whatever the inputs, a value returned by the exposure
    computation is a ladder value; it raises ValueError exactly when the
    ladder is empty and otherwise can only raise IndexError, which it
    does for a peak that is NaN. *)
Theorem new_int_time_outcomes :
  ∀ (int_times : list Z) (target_int max_int : Exposure.npfloat)
    (integration_time : Z),
    let outcome :=
      Exposure.new_int_time int_times target_int max_int integration_time in
    (∀ t, outcome = Ok t → t ∈ int_times)
    ∧ (outcome = Raise ValueError ↔ int_times = [])
    ∧ (∀ e, outcome = Raise e → e = ValueError ∨ e = IndexError)
    ∧ (int_times ≠ [] →
         Exposure.new_int_time int_times target_int Exposure.NaN
           integration_time = Raise IndexError).
Proof.
  intros int_times target_int max_int integration_time outcome.
  unfold outcome, Exposure.new_int_time.
  destruct int_times as [|t1 rest].
  { simpl. split_and!; [done|done|intros e [= <-]; by left|done]. }
  set (d := Exposure.diff (t1 :: rest) _).
  assert (∃ m, Exposure.py_min d = Ok m) as [m ->] by (by eexists).
  split_and!.
  - intros t. destruct (Exposure.first_true _) as [idx|]; [|done].
    destruct ((t1 :: rest) !! idx) as [u|] eqn:Hu; [|done].
    intros [= <-]. by eapply list_elem_of_lookup_2.
  - split; [|done].
    destruct (Exposure.first_true _) as [idx|] eqn:Hft.
    + by destruct ((t1 :: rest) !! idx).
    + apply first_true_raise in Hft as ->. done.
  - intros e. destruct (Exposure.first_true _) as [idx|] eqn:Hft.
    + destruct ((t1 :: rest) !! idx); [done|]. intros [= <-]. by right.
    + apply first_true_raise in Hft as ->. intros [= <-]. by right.
  - intros _. unfold Exposure.scaled_time, Exposure.scale.
    assert (Exposure.fdiv target_int Exposure.NaN = Exposure.NaN) as ->
      by (by destruct target_int).
    cbn [Exposure.fmul].
    assert (∀ l, Exposure.diff l Exposure.NaN = (fun _ => Exposure.NaN) <$> l)
      as -> by (intros l; unfold Exposure.diff; by apply list_fmap_ext).
    assert (∀ (l : list Z),
               fold_left (fun m y => if Exposure.flt y m then y else m)
                 ((fun _ => Exposure.NaN) <$> l) Exposure.NaN
               = Exposure.NaN) as Hfold.
    { induction l as [|u l IH]; [done|]. simpl. apply IH. }
    cbn [fmap list_fmap Exposure.py_min]. rewrite Hfold.
    rewrite first_true_all_false; [done|].
    constructor; [done|]. rewrite !Forall_fmap. by apply Forall_true.
Qed.

Lemma new_int_time_outcomes_witness :
  Exposure.new_int_time [50; 60]%Z (Exposure.Fin 50000) Exposure.NaN 100
  = Raise IndexError.
Proof.
  apply (proj2 (proj2 (proj2
           (new_int_time_outcomes [50; 60]%Z (Exposure.Fin 50000)
              Exposure.NaN 100)))).
  done.
Defined.



(** X4: when the peak of the spectrum equals the target and the current
    integration time is on the ladder, the computation returns the
    current integration time: nothing is reconfigured. *)
Theorem new_int_time_stays_at_target :
  ∀ (int_times : list Z) (target_int : Q) (integration_time : Z),
    (0 < target_int)%Q → integration_time ∈ int_times →
    Exposure.new_int_time int_times (Exposure.Fin target_int)
      (Exposure.Fin target_int) integration_time = Ok integration_time.
Proof.
  intros int_times target_int integration_time Hpos Hin.
  destruct (new_int_time_fin int_times target_int target_int integration_time)
    as (idx & t & Hrun & Hidx & Hnear & _); [by intros ->; inversion Hin|done|].
  rewrite Hrun. f_equal. specialize (Hnear _ Hin).
  assert (inject_Z integration_time * (target_int / target_int)
          == inject_Z integration_time)%Q as Hs by (field; lra).
  rewrite Hs in Hnear.
  assert (inject_Z integration_time - inject_Z integration_time == 0)%Q
    as Hz by ring.
  rewrite Hz in Hnear.
  assert (Qabs (inject_Z t - inject_Z integration_time) <= 0)%Q as Hle
    by exact Hnear.
  apply Qabs_Qle_condition in Hle as [Hlo Hhi].
  apply inject_Z_injective. lra.
Qed.

Lemma new_int_time_stays_at_target_witness :
  Exposure.new_int_time [50; 60; 70]%Z (Exposure.Fin 50000)
    (Exposure.Fin 50000) 60 = Ok 60%Z.
Proof.
  apply new_int_time_stays_at_target; [reflexivity|]. right. left.
Defined.

(** ** The result rows *)

Section RowFacts.
Import Ledger.
Variable fmt : pyval -> string.

Lemma append_assoc (s1 s2 s3 : string) :
  String.append (String.append s1 s2) s3
  = String.append s1 (String.append s2 s3).
Proof.
  induction s1 as [|a s1 IH]; [done|].
  change (String a (String.append (String.append s1 s2) s3)
          = String a (String.append s1 (String.append s2 s3))).
  by rewrite IH.
Qed.

Lemma row_join_go (rest : list pyval) :
  ∀ (r0 : pyval) (pre : string),
    fold_left (fun msg r => String.append msg (String.append "," (fmt r)))
              rest (String.append pre (fmt r0))
    = String.append pre (PyStr.join "," (fmt <$> r0 :: rest)).
Proof.
  induction rest as [|r rest IH]; intros r0 pre; [done|].
  cbn [fold_left].
  rewrite <- (append_assoc _ "," (fmt r)), (append_assoc pre (fmt r0) ",").
  rewrite IH, !append_assoc. reflexivity.
Qed.

Lemma row_of_join (res : list pyval) :
  row_of fmt res = PyStr.join "," (fmt <$> res).
Proof.
  destruct res as [|r0 rest]; [done|]. unfold row_of, row.
  apply (row_join_go rest r0 EmptyString).
Qed.

Lemma meas_text_go (rest : list pyval) :
  ∀ acc : string,
    fold_left (fun w r => String.append w (String.append (fmt r) ","))
              rest (String.append acc ",")
    = String.append
        (fold_left (fun msg r => String.append msg (String.append "," (fmt r)))
                   rest acc) ",".
Proof.
  induction rest as [|r rest IH]; intros acc; [done|].
  cbn [fold_left]. rewrite <- IH. f_equal.
  by rewrite !append_assoc.
Qed.

Lemma meas_text (res : list pyval) :
  res ≠ [] →
  fold_left (fun w r => String.append w (String.append (fmt r) ","))
            res EmptyString
  = String.append (row_of fmt res) ",".
Proof.
  destruct res as [|r0 rest]; [done|]. intros _.
  cbn [fold_left row_of]. unfold row. apply (meas_text_go rest (fmt r0)).
Qed.

(** The loop of [listener] on result lists that are long enough,
    whatever comes after them. *)
Lemma listen_app (records : list (list pyval)) (q : list qitem) :
  Forall (fun res => (12 <= length res)%nat) records →
  status (listen fmt ((Res <$> records) ++ q)) = status (listen fmt q)
  ∧ fops (listen fmt ((Res <$> records) ++ q))
    = flat_map (row_ops fmt) records ++ fops (listen fmt q)
  ∧ unread (listen fmt ((Res <$> records) ++ q)) = unread (listen fmt q).
Proof.
  induction 1 as [|res records Hres _ IH]; [done|].
  destruct (console_line_some fmt res Hres) as [line Hline].
  destruct res as [|r0 rest]; [simpl in Hres; lia|].
  cbn [fmap list_fmap app listen]. rewrite Hline. cbn [status fops unread].
  destruct IH as (-> & -> & ->). done.
Qed.

Lemma console_line_short (res : list pyval) :
  (length res < 12)%nat → console_line fmt res = None.
Proof.
  intros Hlen. unfold console_line.
  destruct (res !! 11%nat) as [r11|] eqn:H11.
  - apply lookup_lt_Some in H11. lia.
  - destruct (res !! 0%nat), (res !! 1%nat), (res !! 2%nat), (res !! 3%nat),
      (res !! 10%nat); done.
Qed.

End RowFacts.

(** X5: the row that [listener] writes for a result list is its values,
    formatted, joined by commas (the empty text for an empty list is
    never written: such a list kills the listener). *)
Theorem row_is_comma_join :
  ∀ (fmt : Ledger.pyval -> string) (res : list Ledger.pyval),
    Ledger.row_of fmt res = PyStr.join "," (fmt <$> res).
Proof. intros fmt res. apply row_of_join. Qed.

(** X6: the audit file that a fit job writes holds the text of the row
    that the listener will write for the same result, followed by one
    more comma; a job that puts nothing writes no audit file. *)
Theorem meas_file_is_row_and_comma :
  ∀ fmt read_spectrum fit_spectrum from_latlon (i : nat),
    let job := Ledger.analyse_spec fmt read_spectrum fit_spectrum from_latlon i in
    match Ledger.meas_file job with
    | Some text =>
        ∃ res, Ledger.puts job = [Ledger.Res res]
               ∧ text = String.append (Ledger.row_of fmt res) ","
    | None => Ledger.puts job = []
    end.
Proof.
  intros fmt read_spectrum fit_spectrum from_latlon i job.
  unfold job, Ledger.analyse_spec.
  destruct (read_spectrum i) as [s|]; [|done].
  destruct (fit_spectrum _) as [fit|]; [|done].
  destruct (from_latlon _ _) as [[[[u0 u1] u2] u3]|]; [|done].
  destruct (Ledger.np_max _) as [peak|]; [|done].
  cbn [Ledger.meas_file Ledger.puts]. eexists. split; [done|].
  by apply meas_text.
Qed.

(** X7: while the listener waits for the next item, every row received
    so far is on disk; the header reaches the disk with the first row and
    sits in the buffer until then. *)
Theorem rows_on_disk_while_waiting :
  ∀ (fmt : Ledger.pyval -> string) (records : list (list Ledger.pyval)),
    Forall (fun res => (12 <= length res)%nat) records →
    let run := Ledger.listener fmt (Ledger.Res <$> records) in
    Ledger.status run = Ledger.Waiting
    ∧ Ledger.written (Ledger.fops run)
      = Ledger.h :: (Ledger.row_of fmt <$> records)
    ∧ Ledger.on_disk (Ledger.fops run)
      = match records with
        | [] => []
        | _ => Ledger.h :: (Ledger.row_of fmt <$> records)
        end.
Proof.
  intros fmt records Hrecords run.
  destruct (listen_app fmt records [] Hrecords) as (Hst & Hops & _).
  rewrite app_nil_r in Hst, Hops. cbn [Ledger.listen Ledger.fops] in Hops.
  assert (Ledger.fops run
          = Ledger.Open :: Ledger.WriteLine Ledger.h
            :: flat_map (Ledger.row_ops fmt) records ++ []) as Hfops
    by (unfold run, Ledger.listener; cbn [Ledger.fops]; by rewrite Hops).
  split_and!; [done| |].
  - rewrite Hfops, app_nil_r. unfold Ledger.written. cbn [omap list_omap].
    f_equal. apply written_rows.
  - rewrite Hfops. unfold Ledger.on_disk. cbn [Ledger.on_disk_go app].
    rewrite on_disk_go_rows. by destruct records.
Qed.

Lemma rows_on_disk_while_waiting_witness :
  Ledger.on_disk
    (Ledger.fops (Ledger.listener sample_fmt [Ledger.Res sample_record]))
  = [Ledger.h; Ledger.row_of sample_fmt sample_record].
Proof.
  refine (proj2 (proj2 (rows_on_disk_while_waiting sample_fmt
                          [sample_record] _))).
  repeat constructor; simpl; lia.
Defined.

(** X8: a result list with fewer than the twelve values that the print
    statement indexes ends the listener with IndexError: when it is not
    empty its row has been written and flushed by then, and the items
    behind it are never read. *)
Theorem short_record_kills_listener :
  ∀ (fmt : Ledger.pyval -> string) (records : list (list Ledger.pyval))
    (res : list Ledger.pyval) (later : list Ledger.qitem),
    Forall (fun res => (12 <= length res)%nat) records →
    (length res < 12)%nat →
    let run := Ledger.listener fmt ((Ledger.Res <$> records)
                                    ++ Ledger.Res res :: later) in
    Ledger.status run = Ledger.Died IndexError
    ∧ Ledger.on_disk (Ledger.fops run)
      = Ledger.h :: (Ledger.row_of fmt <$> records)
        ++ match res with [] => [] | _ => [Ledger.row_of fmt res] end
    ∧ Ledger.unread run = later.
Proof.
  intros fmt records res later Hrecords Hshort run.
  destruct (listen_app fmt records (Ledger.Res res :: later) Hrecords)
    as (Hst & Hops & Hun).
  assert (Ledger.listen fmt (Ledger.Res res :: later)
          = {| Ledger.status := Ledger.Died IndexError;
               Ledger.fops :=
                 match res with
                 | [] => [Ledger.Close]
                 | _ => [Ledger.WriteLine (Ledger.row_of fmt res);
                         Ledger.Flush; Ledger.Close]
                 end;
               Ledger.stdout := []; Ledger.unread := later |}) as Hlast.
  { destruct res as [|r0 rest]; [done|]. cbn [Ledger.listen].
    by rewrite (console_line_short fmt (r0 :: rest) Hshort). }
  rewrite Hlast in Hst, Hops, Hun. cbn [Ledger.status Ledger.fops Ledger.unread]
    in Hst, Hops, Hun.
  unfold run, Ledger.listener. cbn [Ledger.status Ledger.fops Ledger.unread].
  rewrite Hst, Hops, Hun. split_and!; [done| |done].
  unfold Ledger.on_disk. cbn [Ledger.on_disk_go app].
  rewrite on_disk_go_rows.
  destruct records as [|rec records], res as [|r0 rest];
    cbn [Ledger.on_disk_go app fmap list_fmap];
    rewrite ?app_nil_r, <- ?app_assoc; done.
Qed.

Lemma short_record_kills_listener_witness :
  Ledger.status
    (Ledger.listener sample_fmt
       [Ledger.Res sample_record; Ledger.Res [Ledger.PStr "x"];
        Ledger.Res sample_record])
  = Ledger.Died IndexError.
Proof.
  refine (proj1 (short_record_kills_listener sample_fmt [sample_record]
                   [Ledger.PStr "x"] [Ledger.Res sample_record] _ _)).
  - repeat constructor; simpl; lia.
  - simpl; lia.
Defined.

(** ** The acquisition loop, over whole runs *)

Section LoopFacts.
Import Exposure Acquisition.

Lemma idle_loop (cfg : Config) (ticks : list Tick) :
  ∀ st, Forall idle ticks →
        loop cfg ticks st
        = Running {| i := i st; integration_time := integration_time st;
                     processes := processes st;
                     trace := trace st ++ replicate (length ticks) Sleep |}.
Proof.
  induction ticks as [|tk ticks IH]; intros st Hidle.
  { simpl. rewrite app_nil_r. by destruct st. }
  apply Forall_cons in Hidle as [[Hoff Hnone] Hidle].
  cbn [loop]. unfold loop_pass, hit. rewrite Hoff, Hnone.
  rewrite bool_decide_false by done. rewrite IH by done.
  simpl. by rewrite <- app_assoc.
Qed.

Lemma spectrum_files_snoc (tr : list action) (a : action) :
  spectrum_files (tr ++ [a])
  = spectrum_files tr ++ match a with GetSpectrum j => [j] | _ => [] end.
Proof. rewrite spectrum_files_app. by destruct a. Qed.

Lemma started_snoc (tr : list action) (a : action) :
  started (tr ++ [a])
  = started tr ++ match a with Start j => [j] | _ => [] end.
Proof. rewrite started_app. by destruct a. Qed.

Lemma bookkeeping_prune (k b : nat) (tk : Tick) (st : State) :
  bookkeeping k b st → bookkeeping k b (prune tk st).
Proof.
  intros (Hf & Hnd & Hlt & Hsub). split_and!; [done..|].
  simpl. etrans; [apply sublist_filter|done].
Qed.

Lemma bookkeeping_submit_job (k : nat) (st : State) :
  bookkeeping k (i st) st → bookkeeping k (S (i st)) (submit_job st).
Proof.
  intros (Hf & Hnd & Hlt & Hsub). unfold submit_job.
  destruct (length (processes st) <? 3)%nat; unfold bookkeeping; simpl.
  - rewrite spectrum_files_snoc, started_snoc, app_nil_r.
    split_and!; [done| | |by apply sublist_app].
    + apply NoDup_app. split_and!; [done| |apply NoDup_singleton].
      intros j Hj ->%list_elem_of_singleton. apply Hlt in Hj. lia.
    + intros j [Hj| ->%list_elem_of_singleton]%elem_of_app; [|lia].
      apply Hlt in Hj. lia.
  - rewrite spectrum_files_snoc, started_snoc, !app_nil_r.
    split_and!; [done..| |done]. intros j Hj. apply Hlt in Hj. lia.
Qed.

(** One pass of the loop keeps the books in order; a pass that is cut
    short may have written the spectrum file, and started the process,
    of the number it did not get to count. *)
Lemma bookkeeping_loop_pass (cfg : Config) (tk : Tick) (st : State) :
  bookkeeping (i st) (i st) st →
  match loop_pass cfg tk st with
  | Continue st' => bookkeeping (i st') (i st') st'
  | Break st' | Abort _ st' =>
      ∃ k b, bookkeeping k b st' ∧ (b <= k)%nat
             ∧ (k = i st' ∨ k = S (i st'))
  end.
Proof.
  intros Hst. pose proof Hst as (Hf & Hnd & Hlt & Hsub).
  assert (bookkeeping (S (i st)) (i st) (emit (GetSpectrum (i st)) st))
    as Hgot.
  { unfold bookkeeping. cbn [trace emit processes].
    rewrite spectrum_files_snoc, started_snoc, app_nil_r, Hf, seq_S.
    done. }
  assert (∀ k b s, bookkeeping k b s → bookkeeping k b (emit PutKill s))
    as Hkill.
  { intros k b s (? & ? & ? & ?). unfold bookkeeping. simpl.
    by rewrite spectrum_files_snoc, started_snoc, !app_nil_r. }
  unfold loop_pass, try_block, on_keyboard_interrupt.
  destruct (hit tk AtPoll); [exists (i st), (i st); auto|].
  destruct (control_on tk).
  2:{ destruct (interrupt tk).
      - exists (i st), (i st); auto.
      - unfold bookkeeping. simpl.
        by rewrite spectrum_files_snoc, started_snoc, !app_nil_r. }
  destruct (hit tk AtGetSpectrum).
  { exists (i st), (i st). split_and!; [by apply Hkill|lia|by left]. }
  destruct (hit tk AtExposure).
  { exists (S (i st)), (i st). split_and!; [by apply Hkill|lia|by right]. }
  destruct (new_int_time _ _ _ _) as [t|e].
  2:{ exists (S (i st)), (i st). split_and!; [done|lia|by right]. }
  set (st1 := if bool_decide _ then _ else _).
  assert (bookkeeping (S (i st)) (i st) st1 ∧ i st1 = i st) as [Hst1 Hi1].
  { unfold st1. case_bool_decide; [|done]. split; [|done].
    destruct Hgot as (? & ? & ? & ?). unfold bookkeeping. simpl in *.
    by rewrite spectrum_files_snoc, started_snoc, !app_nil_r. }
  destruct (hit tk AtPrune).
  { exists (S (i st)), (i st). simpl. rewrite Hi1.
    split_and!; [by apply Hkill|lia|by right]. }
  pose proof (bookkeeping_prune _ _ tk _ Hst1) as Hpruned.
  destruct (hit tk AtStart).
  { exists (S (i st)), (i st). simpl. rewrite Hi1.
    split_and!; [by apply Hkill|lia|by right]. }
  assert (i (prune tk st1) = i st) as Hi2 by (simpl; done).
  rewrite <- Hi2 in Hpruned at 2.
  apply bookkeeping_submit_job in Hpruned. rewrite Hi2 in Hpruned.
  assert (i (submit_job (prune tk st1)) = i st) as Hi3.
  { unfold submit_job. by destruct (_ <? 3)%nat. }
  destruct (hit tk AtIncrement).
  { exists (S (i st)), (S (i st)). simpl. rewrite Hi3.
    split_and!; [by apply Hkill|lia|by right]. }
  simpl. rewrite Hi3. exact Hpruned.
Qed.

Lemma bookkeeping_complete (k b : nat) (st : State) :
  bookkeeping k b st → bookkeeping k b (complete st).
Proof.
  intros (Hf & Hnd & Hlt & Hsub). unfold bookkeeping.
  rewrite processes_complete, trace_complete.
  rewrite spectrum_files_app, started_app.
  assert (spectrum_files ([ProgramEnded; JoinListener]
                          ++ (Join <$> processes st)) = []
          ∧ started ([ProgramEnded; JoinListener]
                     ++ (Join <$> processes st)) = []) as [-> ->].
  { simpl. generalize (processes st). intros ps. unfold spectrum_files, started.
    induction ps as [|p ps [IH1 IH2]]; [done|]. simpl in *. done. }
  by rewrite !app_nil_r.
Qed.

Lemma bookkeeping_loop (cfg : Config) (ticks : list Tick) :
  ∀ st, bookkeeping (i st) (i st) st →
        ∃ k b, bookkeeping k b (final (loop cfg ticks st)) ∧ (b <= k)%nat
               ∧ (k = i (final (loop cfg ticks st))
                  ∨ k = S (i (final (loop cfg ticks st)))).
Proof.
  induction ticks as [|tk ticks IH]; intros st Hst.
  { exists (i st), (i st). simpl. auto. }
  cbn [loop]. pose proof (bookkeeping_loop_pass cfg tk st Hst) as Hpass.
  destruct (loop_pass cfg tk st) as [st'|st'|e st'].
  - by apply IH.
  - destruct Hpass as (k & b & Hb & Hle & Hk). exists k, b. simpl.
    split_and!; [by apply bookkeeping_complete|done|].
    assert (i (complete st') = i st') as ->; [|done].
    assert (∀ ps s, i (fold_left (fun s p => emit (Join p) s) ps s) = i s)
      as H.
    { induction ps as [|p ps IHp]; intros s; [done|]. simpl. by rewrite IHp. }
    unfold complete. by rewrite H.
  - exact Hpass.
Qed.

Lemma quiet_loop_pass (cfg : Config) (tk : Tick) (st : State) :
  Forall (fun a => is_shutdown a = false) (trace st) →
  match loop_pass cfg tk st with
  | Continue st' | Abort _ st' =>
      Forall (fun a => is_shutdown a = false) (trace st')
  | Break st' =>
      ∃ before, trace st' = before ++ [PutKill]
                ∧ Forall (fun a => is_shutdown a = false) before
  end.
Proof.
  intros Hq.
  assert (∀ s a, Forall (fun a => is_shutdown a = false) (trace s) →
                 is_shutdown a = false →
                 Forall (fun a => is_shutdown a = false) (trace (emit a s)))
    as Hemit.
  { intros s a Hs Ha. simpl. apply Forall_app. split; [done|]. by constructor. }
  unfold loop_pass, try_block, on_keyboard_interrupt.
  destruct (hit tk AtPoll); [done|].
  destruct (control_on tk); [|destruct (interrupt tk); [done|by apply Hemit]].
  destruct (hit tk AtGetSpectrum); [by eexists|].
  destruct (hit tk AtExposure); [eexists; split; [done|by apply Hemit]|].
  destruct (new_int_time _ _ _ _) as [t|e]; [|by apply Hemit].
  set (st1 := if bool_decide _ then _ else _).
  assert (Forall (fun a => is_shutdown a = false) (trace st1)) as Hst1.
  { unfold st1. case_bool_decide; [|by apply Hemit].
    apply Hemit; [|done]. simpl. by apply (Hemit st). }
  destruct (hit tk AtPrune); [by eexists|].
  destruct (hit tk AtStart); [by eexists|].
  assert (Forall (fun a => is_shutdown a = false)
            (trace (submit_job (prune tk st1)))) as Hst2.
  { unfold submit_job. destruct (_ <? 3)%nat; by apply Hemit. }
  destruct (hit tk AtIncrement); [by eexists|done].
Qed.

End LoopFacts.

(** X9: while the control file is absent and nobody interrupts, the loop
    only sleeps: it reads no spectrum, starts no fit job, leaves the
    counter and the integration time alone and stays in the loop. *)
Theorem inactive_loop_only_sleeps :
  ∀ cfg t0 ticks,
    Forall idle ticks →
    Acquisition.run cfg t0 ticks
    = Acquisition.Running
        {| Acquisition.i := 0; Acquisition.integration_time := t0;
           Acquisition.processes := [];
           Acquisition.trace :=
             Acquisition.StartListener
             :: replicate (length ticks) Acquisition.Sleep |}.
Proof.
  intros cfg t0 ticks Hidle. unfold Acquisition.run.
  by rewrite idle_loop.
Qed.

Lemma inactive_loop_only_sleeps_witness :
  Acquisition.trace
    (Acquisition.final
       (Acquisition.run default_config 100
          [{| Acquisition.control_on := false;
              Acquisition.max_int := Exposure.Fin 0;
              Acquisition.is_alive := fun _ => true;
              Acquisition.interrupt := None |}]))
  = [Acquisition.StartListener; Acquisition.Sleep].
Proof.
  rewrite inactive_loop_only_sleeps; [reflexivity|].
  repeat constructor.
Defined.



(** ** The sync client, file by file *)

Section PathFacts.
Import PiSpec.

Lemma append_cons (a : Ascii.ascii) (s t : string) :
  String.append (String a s) t = String a (String.append s t).
Proof. reflexivity. Qed.

Lemma has_slash_cons (a : Ascii.ascii) (s : string) :
  has_slash (String a s) = bool_decide (a = slash) || has_slash s.
Proof. reflexivity. Qed.

Lemma basename_cons (a : Ascii.ascii) (s : string) :
  basename (String a s)
  = if has_slash s then basename s
    else if bool_decide (a = slash) then s else String a s.
Proof. reflexivity. Qed.

Lemma has_slash_append (s name : string) :
  has_slash (String.append s (String slash name)) = true.
Proof.
  induction s as [|a s IH].
  - change (has_slash (String slash name) = true).
    rewrite has_slash_cons. by rewrite bool_decide_true.
  - rewrite append_cons, has_slash_cons, IH. apply orb_true_r.
Qed.

Lemma basename_append (s name : string) :
  has_slash name = false →
  basename (String.append s (String slash name)) = name.
Proof.
  intros Hname. induction s as [|a s IH].
  - change (basename (String slash name) = name).
    rewrite basename_cons, Hname. by rewrite bool_decide_true.
  - rewrite append_cons, basename_cons. by rewrite has_slash_append.
Qed.

Lemma elem_of_listdir (d : gmap string (list string)) (name : string) :
  name ∈ listdir d ↔ is_Some (d !! name).
Proof.
  unfold listdir. rewrite list_elem_of_fmap. split.
  - intros ([k f] & -> & Hin). apply elem_of_map_to_list in Hin. by exists f.
  - intros [f Hf]. exists (name, f). split; [done|].
    by apply elem_of_map_to_list.
Qed.

Lemma elem_of_glob (pre : string) (d : gmap string (list string))
    (name : string) :
  name ∈ glob pre d ↔ String.prefix pre name = true ∧ is_Some (d !! name).
Proof.
  unfold glob, sorted. rewrite merge_sort_Permutation, list_elem_of_filter.
  fold (listdir d). rewrite elem_of_listdir, Is_true_true. done.
Qed.

End PathFacts.

(** X12: [os.path.split(f)[1]] as the client uses it gives back the file
    name from a path made of a folder, a slash and a name without a
    slash, whatever the folder. *)
Theorem basename_of_joined_path :
  ∀ (folder name : string),
    PiSpec.has_slash name = false →
    PiSpec.basename
      (String.append folder (String.append "/" name)) = name.
Proof. intros folder name Hname. by apply basename_append. Qed.

Lemma basename_of_joined_path_witness :
  PiSpec.basename
    (String.append "/home/pi/drone/Results/20240101_120000/meas"
       (String.append "/" "meas_00000.txt"))
  = "meas_00000.txt".
Proof. apply basename_of_joined_path. reflexivity. Defined.

(** X13: whatever the link does, [sync_so2_data] on an existing replica
    only ever appends to it: the lines held before stay, in place and in
    order; it touches no other local file and nothing on the remote
    side; and when it raises, the replica is as it was. *)
Theorem sync_so2_data_only_appends :
  ∀ (buffer_len : nat) (w : PiSpec.World) (loc_file : list string),
    PiSpec.local_ledger w = Some loc_file →
    let outcome := PiSpec.sync_so2_data buffer_len w in
    PiSpec.remote outcome.2 = PiSpec.remote w
    ∧ (∃ appended,
          PiSpec.local_ledger outcome.2 = Some (loc_file ++ appended)
          ∧ ∀ e, outcome.1 = Raise e → appended = [])
    ∧ ∀ p, p ≠ PiSpec.so2_output →
           PiSpec.read (PiSpec.local outcome.2) p
           = PiSpec.read (PiSpec.local w) p.
Proof.
  intros buffer_len w loc_file Hloc outcome. unfold outcome.
  unfold PiSpec.sync_so2_data, PiSpec.bind, PiSpec.get.
  unfold PiSpec.local_ledger in Hloc. rewrite Hloc.
  unfold PiSpec.run_command. simpl.
  destruct (default false (head (PiSpec.faults w))); simpl.
  - split_and!; [done| |done]. exists []. by rewrite app_nil_r.
  - destruct (PiSpec.append_unseen _ _) as [flag new]. simpl.
    split_and!; [done| |].
    + exists new. split; [|done]. unfold PiSpec.local_ledger. simpl.
      apply lookup_insert_eq.
    + intros [name|name] Hp; simpl; [|done].
      apply lookup_insert_ne. intros <-. by apply Hp.
Qed.

Lemma sync_so2_data_only_appends_witness :
  ∃ appended,
    PiSpec.local_ledger
      (PiSpec.sync_so2_data 100
         (ledger_world ["h"; "a"; "b"] (Some ["h"; "a"]))).2
    = Some (["h"; "a"] ++ appended).
Proof.
  destruct (sync_so2_data_only_appends 100
              (ledger_world ["h"; "a"; "b"] (Some ["h"; "a"])) ["h"; "a"])
    as (_ & (appended & Happ & _) & _).
  - by_evaluation.
  - by exists appended.
Defined.



Section PullFacts.
Import PiSpec.

(** Copying a list of files of the run folder over a working link. *)
Lemma for_each_copy (files : list string) :
  ∀ w, faults w = [] →
       (∀ f, f ∈ files → is_Some (run_dir (remote w) !! f)) →
       ∃ w', for_each files (fun file => copy_remote_file (InRun file)) w
             = (Ok tt, w')
             ∧ faults w' = [] ∧ remote w' = remote w ∧ folder w' = folder w
             ∧ meas_dir (local w') = meas_dir (local w)
             ∧ ∀ name, run_dir (local w') !! name
                       = if decide (name ∈ files)
                         then run_dir (remote w) !! name
                         else run_dir (local w) !! name.
Proof.
  induction files as [|f files IH]; intros w Hfaults Hthere.
  { exists w. split_and!; [done..|]. intros name.
    rewrite decide_False; [done|]. apply not_elem_of_nil. }
  destruct (Hthere f) as [c Hc]; [left|].
  cbn [for_each]. unfold bind at 1. unfold copy_remote_file at 1.
  simpl. rewrite Hfaults. simpl. rewrite Hc.
  match goal with
  | |- context [for_each files _ ?w1] =>
      destruct (IH w1) as (w' & -> & Hf' & Hr' & Hfo' & Hm' & Hl')
  end; [done| |].
  { intros g Hg. simpl. apply Hthere. by right. }
  exists w'. split_and!; [done..|]. intros name. rewrite Hl'. simpl.
  destruct (decide (name ∈ files)) as [Hin|Hout].
  - rewrite decide_True; [done|by right].
  - destruct (decide (name = f)) as [->|Hne].
    + rewrite decide_True by left. rewrite lookup_insert_eq. done.
    + rewrite decide_False.
      * by rewrite lookup_insert_ne.
      * intros [?|?]%elem_of_cons; done.
Qed.

Lemma fmap_basename_joined (root : string) (names : list string) :
  (∀ name, name ∈ names → has_slash name = false) →
  basename <$> ((fun name => String.append root (String.append "/" name))
                <$> names)
  = names.
Proof.
  induction names as [|name names IH]; intros Hnames; [done|].
  rewrite !fmap_cons, IH by (intros n Hn; apply Hnames; by right).
  f_equal. apply basename_append, Hnames. left.
Qed.

(** The names that [sync_spectra] sees on the remote side. *)
Lemma basename_stdout_spectra (w : World) :
  (∀ name, is_Some (run_dir (remote w) !! name) → has_slash name = false) →
  basename <$> stdout LsSpectra w = glob "spectrum" (run_dir (remote w)).
Proof.
  intros Hnames. cbn [stdout]. apply fmap_basename_joined.
  intros name Hname. apply Hnames. apply elem_of_glob in Hname. tauto.
Qed.

(** The loop of [sync_results]: what it pulls and what it leaves. *)
Lemma sync_results_pulls (w0 : World) (files : list string) :
  ∀ (synced_files : list string) (w : World),
    ∃ pulled w',
      for_each_with files synced_files
        (fun synced_files file =>
           try_except
             (copy_remote_file (InMeas file) ;;;
              ret (synced_files ++ [local_meas_path w0 file]))
             (ret synced_files)) w
      = (Ok (synced_files ++ (local_meas_path w0 <$> pulled)), w')
      ∧ pulled `sublist_of` files
      ∧ (∀ f, f ∈ pulled → is_Some (meas_dir (remote w) !! f))
      ∧ remote w' = remote w
      ∧ run_dir (local w') = run_dir (local w)
      ∧ ∀ name, meas_dir (local w') !! name
                = if decide (name ∈ pulled)
                  then meas_dir (remote w) !! name
                  else meas_dir (local w) !! name.
Proof.
  induction files as [|file files IH]; intros synced_files w.
  { exists [], w. cbn [for_each_with fmap list_fmap]. unfold ret.
    rewrite app_nil_r. split_and!; [done|done| |done|done|].
    - intros f Hf. by apply elem_of_nil in Hf.
    - intros name. rewrite decide_False; [done|]. apply not_elem_of_nil. }
  cbn [for_each_with]. unfold bind at 1.
  assert (∃ w1,
             remote w1 = remote w
             ∧ ((try_except
                   (copy_remote_file (InMeas file) ;;;
                    ret (synced_files ++ [local_meas_path w0 file]))
                   (ret synced_files) w = (Ok synced_files, w1)
                 ∧ local w1 = local w)
                ∨ (∃ c, meas_dir (remote w) !! file = Some c
                        ∧ try_except
                            (copy_remote_file (InMeas file) ;;;
                             ret (synced_files ++ [local_meas_path w0 file]))
                            (ret synced_files) w
                          = (Ok (synced_files ++ [local_meas_path w0 file]),
                             w1)
                        ∧ run_dir (local w1) = run_dir (local w)
                        ∧ meas_dir (local w1)
                          = <[file := c]> (meas_dir (local w)))))
    as (w1 & Hr1 & Hstep).
  { unfold try_except, bind, copy_remote_file, ret. simpl.
    destruct (default false (head (faults w))).
    - eexists. split; [|left; split; reflexivity]. done.
    - destruct (meas_dir (remote w) !! file) as [c|].
      + eexists. split; [|right; exists c; split_and!; reflexivity]. done.
      + eexists. split; [|left; split; reflexivity]. done. }
  destruct Hstep as [[-> Hl1]|(c & Hc & -> & Hl1 & Hm1)].
  - destruct (IH synced_files w1)
      as (pulled & w' & Hrun & Hsub & Hthere & Hr & Hl & Hm).
    exists pulled, w'. rewrite Hr1, Hl1 in *.
    split_and!; [exact Hrun| |done..]. by apply sublist_cons.
  - destruct (IH (synced_files ++ [local_meas_path w0 file]) w1)
      as (pulled & w' & Hrun & Hsub & Hthere & Hr & Hl & Hm).
    exists (file :: pulled), w'. rewrite Hr1, Hl1, Hm1 in *.
    split_and!; [|by apply sublist_skip| |done|done|].
    + rewrite Hrun, fmap_cons. by rewrite <- app_assoc.
    + intros f [->|Hf]%elem_of_cons; [by eexists|by apply Hthere].
    + intros name. rewrite Hm.
      destruct (decide (name ∈ pulled)) as [Hin|Hout].
      { rewrite decide_True; [done|by right]. }
      destruct (decide (name = file)) as [->|Hne].
      { rewrite decide_True by left. by rewrite lookup_insert_eq. }
      rewrite decide_False.
      { by rewrite lookup_insert_ne. }
      intros [?|?]%elem_of_cons; done.
Qed.

End PullFacts.

(** X15: over a working link, and with file names that hold no slash,
    [sync_spectra] returns the remote spectrum files that were not in
    the local folder; afterwards each of them is there as a copy of the
    remote file, the files that were already there are as they were, and
    a second [sync_spectra] pulls nothing and changes no local file. *)
Theorem sync_spectra_pulls_missing_files_once :
  ∀ (w : PiSpec.World),
    PiSpec.faults w = [] →
    (∀ name, is_Some (PiSpec.run_dir (PiSpec.remote w) !! name) →
             PiSpec.has_slash name = false) →
    ∃ files_to_sync w',
      PiSpec.sync_spectra w = (Ok files_to_sync, w')
      ∧ (∀ name, name ∈ files_to_sync
                 ↔ String.prefix "spectrum" name = true
                   ∧ is_Some (PiSpec.run_dir (PiSpec.remote w) !! name)
                   ∧ PiSpec.run_dir (PiSpec.local w) !! name = None)
      ∧ (∀ name, PiSpec.run_dir (PiSpec.local w') !! name
                 = if decide (name ∈ files_to_sync)
                   then PiSpec.run_dir (PiSpec.remote w) !! name
                   else PiSpec.run_dir (PiSpec.local w) !! name)
      ∧ PiSpec.meas_dir (PiSpec.local w') = PiSpec.meas_dir (PiSpec.local w)
      ∧ PiSpec.remote w' = PiSpec.remote w
      ∧ ∃ w'', PiSpec.sync_spectra w' = (Ok [], w'')
               ∧ PiSpec.local w'' = PiSpec.local w'.
Proof.
  intros w Hfaults Hnames.
  assert (∀ v : PiSpec.World,
            PiSpec.faults v = [] →
            PiSpec.remote v = PiSpec.remote w →
            ∃ v',
              PiSpec.sync_spectra v
              = (Ok (filter (fun f => f ∉ PiSpec.listdir
                                           (PiSpec.run_dir (PiSpec.local v)))
                       (PiSpec.glob "spectrum"
                          (PiSpec.run_dir (PiSpec.remote w)))), v')
              ∧ PiSpec.faults v' = [] ∧ PiSpec.remote v' = PiSpec.remote w
              ∧ PiSpec.meas_dir (PiSpec.local v')
                = PiSpec.meas_dir (PiSpec.local v)
              ∧ ∀ name,
                  PiSpec.run_dir (PiSpec.local v') !! name
                  = if decide (name ∈ filter
                                 (fun f => f ∉ PiSpec.listdir
                                             (PiSpec.run_dir (PiSpec.local v)))
                                 (PiSpec.glob "spectrum"
                                    (PiSpec.run_dir (PiSpec.remote w))))
                    then PiSpec.run_dir (PiSpec.remote w) !! name
                    else PiSpec.run_dir (PiSpec.local v) !! name) as Hsync.
  { intros v Hfv Hrv.
    unfold PiSpec.sync_spectra, PiSpec.bind at 1, PiSpec.run_command.
    cbn [PiSpec.dial]. rewrite Hfv. cbn [head default tail].
    unfold PiSpec.bind at 1, PiSpec.get.
    assert (∀ name, is_Some (PiSpec.run_dir (PiSpec.remote v) !! name) →
                    PiSpec.has_slash name = false) as Hn1
      by (rewrite Hrv; exact Hnames).
    match goal with
    | |- context [PiSpec.stdout PiSpec.LsSpectra ?v1] =>
        rewrite (basename_stdout_spectra v1 Hn1)
    end.
    cbn [PiSpec.remote PiSpec.local]. rewrite Hrv.
    unfold PiSpec.bind at 1.
    match goal with
    | |- context [PiSpec.for_each ?files _ ?v1] =>
        destruct (for_each_copy files v1)
          as (v' & -> & Hf' & Hr' & _ & Hm' & Hl'); [done| |]
    end.
    { intros f [_ Hf]%list_elem_of_filter. cbn [PiSpec.remote].
      rewrite ?Hrv. by apply elem_of_glob in Hf as [_ ?]. }
    exists v'. cbn [PiSpec.remote PiSpec.local] in *.
    rewrite ?Hrv in Hr', Hl'. split_and!; done. }
  destruct (Hsync w Hfaults eq_refl) as (w' & Hrun & Hf' & Hr' & Hm' & Hl').
  set (files := filter _ _) in *.
  assert (∀ name, name ∈ files
                  ↔ String.prefix "spectrum" name = true
                    ∧ is_Some (PiSpec.run_dir (PiSpec.remote w) !! name)
                    ∧ PiSpec.run_dir (PiSpec.local w) !! name = None)
    as Hfiles.
  { intros name. unfold files.
    rewrite list_elem_of_filter, elem_of_glob, elem_of_listdir.
    rewrite <- eq_None_not_Some. tauto. }
  exists files, w'. split_and!; [done..|].
  destruct (Hsync w' Hf' Hr') as (w'' & Hrun2 & _ & _ & Hm'' & Hl'').
  assert (filter (fun f => f ∉ PiSpec.listdir
                                (PiSpec.run_dir (PiSpec.local w')))
            (PiSpec.glob "spectrum" (PiSpec.run_dir (PiSpec.remote w)))
          = []) as Hnone.
  { apply filter_none. intros name Hname Hout. apply Hout.
    apply elem_of_listdir. rewrite Hl'.
    apply elem_of_glob in Hname as [Hpre Hthere].
    destruct (decide (name ∈ files)) as [_|Hnot]; [done|].
    destruct (PiSpec.run_dir (PiSpec.local w) !! name) eqn:Hloc; [done|].
    exfalso. apply Hnot, Hfiles. done. }
  rewrite Hnone in Hrun2, Hl''. exists w''. split; [done|].
  destruct (PiSpec.local w'') as [r2 m2] eqn:E2,
    (PiSpec.local w') as [r1 m1] eqn:E1. simpl in *. f_equal; [|done].
  apply map_eq. intros name. rewrite Hl''.
  destruct (decide (name ∈ [])) as [Hin|_]; [|done].
  by apply not_elem_of_nil in Hin.
Qed.

Lemma sync_spectra_pulls_missing_files_once_witness :
  ∃ w', PiSpec.sync_spectra spectra_world = (Ok ["spectrum_00001.txt"], w')
        ∧ PiSpec.run_dir (PiSpec.local w') !! "spectrum_00001.txt"
          = Some ["310,120"].
Proof.
  assert (PiSpec.faults spectra_world = []) as Hfaults by reflexivity.
  assert (∀ name,
            is_Some (PiSpec.run_dir (PiSpec.remote spectra_world) !! name) →
            PiSpec.has_slash name = false) as Hnames.
  { intros name Hname.
    assert (map_Forall (fun name _ => PiSpec.has_slash name = false)
              (PiSpec.run_dir (PiSpec.remote spectra_world))) as Hall
      by by_decision.
    destruct Hname as [f Hf]. exact (Hall name f Hf). }
  destruct (sync_spectra_pulls_missing_files_once spectra_world Hfaults Hnames)
    as (files & w' & Hrun & _ & Hl & _).
  assert ((PiSpec.sync_spectra spectra_world).1 = Ok ["spectrum_00001.txt"])
    as Hfiles by by_evaluation.
  rewrite Hrun in Hfiles. simpl in Hfiles. injection Hfiles as ->.
  exists w'. split; [exact Hrun|]. rewrite Hl.
  rewrite decide_True by (apply list_elem_of_singleton; reflexivity).
  by_evaluation.
Defined.

(** X16: once its listing command went through, [sync_results] returns
    the local paths of the audit files it pulled, in the order in which
    it pulled them; each of them was missing locally and is now a copy of
    the remote file, and no local file that was there before, nor any
    file outside the [meas] folder, nor anything on the remote side, is
    changed, whatever the copies do. *)
Theorem sync_results_returns_what_it_pulled :
  ∀ (w : PiSpec.World),
    default false (head (PiSpec.faults w)) = false →
    ∃ pulled w',
      PiSpec.sync_results w = (Ok (PiSpec.local_meas_path w <$> pulled), w')
      ∧ pulled `sublist_of` PiSpec.results_to_sync w
      ∧ (∀ f, f ∈ pulled →
              PiSpec.meas_dir (PiSpec.local w) !! f = None
              ∧ is_Some (PiSpec.meas_dir (PiSpec.remote w) !! f))
      ∧ PiSpec.remote w' = PiSpec.remote w
      ∧ PiSpec.run_dir (PiSpec.local w') = PiSpec.run_dir (PiSpec.local w)
      ∧ ∀ name, PiSpec.meas_dir (PiSpec.local w') !! name
                = if decide (name ∈ pulled)
                  then PiSpec.meas_dir (PiSpec.remote w) !! name
                  else PiSpec.meas_dir (PiSpec.local w) !! name.
Proof.
  intros w Hup.
  unfold PiSpec.sync_results, PiSpec.bind at 1, PiSpec.run_command.
  cbn [PiSpec.dial]. rewrite Hup.
  unfold PiSpec.bind at 1, PiSpec.get.
  match goal with
  | |- context [PiSpec.for_each_with ?files [] _ ?w1] =>
      destruct (sync_results_pulls w1 files [] w1)
        as (pulled & w' & Hrun & Hsub & Hthere & Hr & Hl & Hm)
  end.
  exists pulled, w'. cbn [PiSpec.remote PiSpec.local] in *.
  split_and!; [exact Hrun|exact Hsub| |done..].
  intros f Hf. split; [|by apply Hthere].
  assert (f ∈ PiSpec.results_to_sync w) as Hin
    by (by eapply elem_of_sublist).
  apply list_elem_of_filter in Hin as [Hout _].
  rewrite elem_of_listdir in Hout. by apply eq_None_not_Some.
Qed.

Lemma sync_results_returns_what_it_pulled_witness :
  ∃ pulled w',
    PiSpec.sync_results results_world
    = (Ok (PiSpec.local_meas_path results_world <$> pulled), w')
    ∧ PiSpec.remote w' = PiSpec.remote results_world.
Proof.
  assert (default false (head (PiSpec.faults results_world)) = false) as Hup
    by (vm_compute; reflexivity).
  destruct (sync_results_returns_what_it_pulled results_world Hup)
    as (pulled & w' & Hrun & _ & _ & Hr & _).
  exists pulled, w'. split; [exact Hrun|exact Hr].
Defined.

(** ** The control marker *)

Section ControlFacts.
Import Control.

(** What the operations keep: the client's flag says whether the control
    file exists, and the button offers the opposite of what is going
    on. *)
Lemma perform_keeps_flag (o : op) (s : Station) :
  is_active s = controlON s →
  is_active (perform o s).2 = controlON (perform o s).2.
Proof.
  intros Hs.
  destruct o; unfold perform, start_stop_pispec, send_start, send_stop,
    run_command;
    destruct (is_active s) eqn:Ha, (default false (head (faults s)));
    simpl; congruence.
Qed.

Lemma session_cons (o : op) (ops : list op) (s : Station) :
  session (o :: ops) s
  = match perform o s with
    | (Ok _, s') => session ops s'
    | (Raise e, s') => (Raise e, s')
    end.
Proof. reflexivity. Qed.

Lemma click_faults (s : Station) :
  faults (start_stop_pispec s).2 = tail (faults s).
Proof.
  unfold start_stop_pispec, send_start, send_stop, run_command.
  by destruct (is_active s), (default false (head (faults s))).
Qed.

Lemma click_ok (s : Station) :
  default false (head (faults s)) = false →
  start_stop_pispec s
  = (Ok tt,
     {| controlON := negb (is_active s); is_active := negb (is_active s);
        go_btn := if is_active s then "Start!" else "Stop!";
        faults := tail (faults s) |}).
Proof.
  intros Hup.
  unfold start_stop_pispec, send_start, send_stop, run_command.
  rewrite Hup. by destruct (is_active s).
Qed.

Lemma click_raise (s : Station) :
  default false (head (faults s)) = true →
  start_stop_pispec s
  = (Raise CommandFailed,
     {| controlON := controlON s; is_active := is_active s;
        go_btn := go_btn s; faults := tail (faults s) |}).
Proof.
  intros Hup.
  unfold start_stop_pispec, send_start, send_stop, run_command.
  rewrite Hup. by destruct (is_active s).
Qed.

End ControlFacts.

(** X17: the client's [is_active] flag tells whether the control file
    exists on the airborne unit, and keeps doing so through any sequence
    of [send_start], [send_stop] and button clicks, whichever of the
    commands fail: a command that fails leaves both as they were. *)
Theorem is_active_tracks_control_file :
  ∀ (ops : list Control.op) (s : Control.Station),
    Control.is_active s = Control.controlON s →
    Control.is_active (Control.session ops s).2
    = Control.controlON (Control.session ops s).2.
Proof.
  induction ops as [|o ops IH]; intros s Hs; [done|].
  rewrite session_cons.
  pose proof (perform_keeps_flag o s Hs) as Hs'.
  destruct (Control.perform o s) as [[[]|e] s']; simpl in *; auto.
Qed.

Lemma is_active_tracks_control_file_witness :
  Control.is_active
    (Control.session [Control.Click; Control.Click; Control.SendStart]
       fresh_station).2
  = Control.controlON
      (Control.session [Control.Click; Control.Click; Control.SendStart]
         fresh_station).2.
Proof.
  apply is_active_tracks_control_file. reflexivity.
Defined.

(** X18: the start/stop button toggles.  From a station whose button
    reads Start! when idle and Stop! when active, clicks on the button
    keep that so, whichever of them fail; and [n] clicks that all go
    through leave the control file present exactly when it was absent
    and [n] is odd, or present and [n] is even. *)
Theorem button_toggles_control_file :
  ∀ (n : nat) (s : Control.Station),
    Control.is_active s = Control.controlON s →
    Control.go_btn s = (if Control.is_active s then "Stop!" else "Start!") →
    let s' := (Control.session (replicate n Control.Click) s).2 in
    Control.go_btn s' = (if Control.is_active s' then "Stop!" else "Start!")
    ∧ (Forall (fun fault => fault = false) (take n (Control.faults s)) →
         (Control.session (replicate n Control.Click) s).1 = Ok tt
         ∧ Control.controlON s' = xorb (Nat.odd n) (Control.controlON s)).
Proof.
  induction n as [|n IH]; intros s Hflag Hbtn.
  { simpl. split; [done|]. intros _. split; [done|].
    by destruct (Control.controlON s). }
  cbn [replicate]. rewrite session_cons. cbn [Control.perform].
  destruct (default false (head (Control.faults s))) eqn:Hup.
  - rewrite (click_raise s Hup). simpl. split; [done|].
    intros Hall. destruct (Control.faults s) as [|[] fs]; [done| |done].
    rewrite firstn_cons in Hall. by apply Forall_cons in Hall as [[=] _].
  - rewrite (click_ok s Hup).
    match goal with
    | |- context [Control.session _ ?s1] =>
        destruct (IH s1) as [Hbtn' Hall']
    end.
    { done. }
    { simpl. by destruct (Control.is_active s). }
    simpl. split; [exact Hbtn'|]. intros Hall. simpl in Hall'.
    destruct Hall' as [Hok Hon].
    { destruct (Control.faults s) as [|f fs]; simpl in *.
      - rewrite take_nil. constructor.
      - by apply Forall_cons in Hall as [_ ?]. }
    split; [exact Hok|]. rewrite Hon, <- Hflag, Nat.odd_succ.
    rewrite <- Nat.negb_odd.
    by destruct (Nat.odd n), (Control.is_active s).
Qed.

Lemma button_toggles_control_file_witness :
  Control.go_btn
    (Control.session (replicate 3 Control.Click) fresh_station).2
  = (if Control.is_active
          (Control.session (replicate 3 Control.Click) fresh_station).2
     then "Stop!" else "Start!").
Proof.
  apply (button_toggles_control_file 3 fresh_station); reflexivity.
Defined.

(** ** The log box once it holds text *)

Section MonitorFacts.
Import Monitor.

(** A box that holds text: its document is not the empty one. *)
Lemma append_to_text (s : string) (box : QPlainTextEdit) :
  box ≠ [] → box ≠ [EmptyString] → appendPlainText s box = box ++ [s].
Proof.
  intros Hne Hnempty. destruct box as [|b [|b' box]]; [done| |done].
  unfold appendPlainText. case_bool_decide as Hb; [by subst|done].
Qed.

Lemma append_all_to_text (lines : list string) :
  ∀ box : QPlainTextEdit,
    box ≠ [] → box ≠ [EmptyString] →
    fold_left (fun b line => appendPlainText (PyStr.strip line) b) lines box
    = box ++ (PyStr.strip <$> lines).
Proof.
  induction lines as [|line lines IH]; intros box Hne Hnempty; simpl.
  - by rewrite app_nil_r.
  - rewrite (append_to_text _ box Hne Hnempty).
    rewrite IH, <- app_assoc; [done| |].
    + by destruct box.
    + destruct box as [|b [|b' box]]; [done| |done]. done.
Qed.

End MonitorFacts.

(** X19: on a box that already holds text, [update_log] appends the log
    lines beyond the number of lines in the box, stripped, and nothing
    else; the box then has at least as many lines as the log, and a
    second call with the same log leaves it as it is. *)
Theorem update_log_appends_lines_beyond_box :
  ∀ (log_text : list string) (box : Monitor.QPlainTextEdit),
    box ≠ [] → box ≠ [EmptyString] →
    Monitor.update_log log_text box
    = box ++ (PyStr.strip <$> drop (length box) log_text)
    ∧ (length log_text <= length (Monitor.update_log log_text box))%nat
    ∧ Monitor.update_log log_text (Monitor.update_log log_text box)
      = Monitor.update_log log_text box.
Proof.
  intros log_text box Hne Hnempty.
  assert (∀ b : Monitor.QPlainTextEdit,
            b ≠ [] → b ≠ [EmptyString] →
            Monitor.update_log log_text b
            = b ++ (PyStr.strip <$> drop (length b) log_text)) as Hstep.
  { intros b Hb Hb'. unfold Monitor.update_log.
    rewrite append_all_to_text by done. by destruct b. }
  rewrite (Hstep box Hne Hnempty).
  assert (length log_text
          <= length (box ++ (PyStr.strip <$> drop (length box) log_text)))%nat
    as Hlen by (rewrite length_app, length_fmap, length_drop; lia).
  split_and!; [done|done|].
  rewrite Hstep.
  - rewrite (drop_ge _ _ Hlen). by rewrite app_nil_r.
  - by destruct box.
  - destruct box as [|b [|b' box]]; [done| |done].
    simpl. intros [= -> _]. by apply Hnempty.
Qed.

Lemma update_log_appends_lines_beyond_box_witness :
  Monitor.update_log ["a "; " b"; "c"] ["a"] = ["a"; "b"; "c"].
Proof.
  destruct (update_log_appends_lines_beyond_box ["a "; " b"; "c"] ["a"])
    as [Hrun _]; [done|done|].
  rewrite Hrun. by_evaluation.
Defined.

(** ** The settings *)


(** X21: the GPS port is looked up under [GPSCOMPort], which is not the
    spelling of the default ([GPSCOMPORT]): the lookup succeeds only for
    a settings file that itself holds [GPSCOMPort].  With no settings
    file, or one that sets the port under the default's spelling, the
    lookup is a KeyError although the default port is in the settings. *)
Theorem gps_port_is_not_covered_by_default :
  ∀ (load_config : option (gmap string Settings.yaml)),
    Settings.gps_port (Settings.config load_config)
    = load_config ≫= (fun file => file !! "GPSCOMPort")
    ∧ Settings.gps_port (Settings.config None) = None
    ∧ (∀ port, Settings.gps_port
                 (Settings.config (Some {[ "GPSCOMPORT" := port ]})) = None)
    ∧ is_Some (Settings.config load_config !! "GPSCOMPORT").
Proof.
  intros load_config. split_and!.
  - unfold Settings.gps_port. destruct load_config as [file|]; simpl.
    + rewrite lookup_union.
      assert (Settings.default_config !! "GPSCOMPort" = None) as ->
        by by_evaluation.
      by destruct (file !! "GPSCOMPort").
    + by_evaluation.
  - by_evaluation.
  - intros port. unfold Settings.gps_port, Settings.config.
    rewrite lookup_union, lookup_singleton_ne by done. by_evaluation.
  - destruct load_config as [file|]; simpl.
    + rewrite lookup_union.
      assert (is_Some (Settings.default_config !! "GPSCOMPORT")) as [v ->]
        by (by eexists).
      destruct (file !! "GPSCOMPORT"); by eexists.
    + by eexists.
Qed.

(** ** The sync worker *)

Section WorkerFacts.
Import PiSpec SyncWorker.

Variable D : Type.
Variable read_csv : list string -> csv D.

(** A signal of the body of [_run]. *)
Lemma cycle_signals (w : World) :
  ∀ s, s ∈ (cycle D read_csv w).1.2 →
       s ≠ Finished ∧ ∀ e, s ≠ Error e.
Proof.
  intros s. unfold cycle.
  destruct (pull_log w) as [[[]|e] w1]; cbn [fst snd app].
  2:{ intros ->%list_elem_of_singleton. done. }
  destruct (read (local w1) log_txt) as [log_text|]; cbn [fst snd app].
  2:{ intros ->%list_elem_of_singleton. done. }
  destruct (sync_so2_data 100 w1) as [[[]|e] w2]; cbn [fst snd app].
  - destruct (read (local w2) so2_output) as [rows|]; cbn [fst snd app].
    + destruct (read_csv rows); cbn [fst snd app]; rewrite ?elem_of_cons, elem_of_nil;
        intros H; destruct_or!; subst; done.
    + rewrite ?elem_of_cons, elem_of_nil.
      intros H; destruct_or!; subst; done.
  - rewrite ?elem_of_cons, elem_of_nil.
    intros H; destruct_or!; subst; done.
  - rewrite ?elem_of_cons, elem_of_nil.
    intros H; destruct_or!; subst; done.
Qed.

Lemma _run_signals (n : nat) :
  ∀ (w : World) s, s ∈ (_run D read_csv n w).1.2 →
                   s ≠ Finished ∧ ∀ e, s ≠ Error e.
Proof.
  induction n as [|n IH]; intros w s; simpl.
  { by intros ?%elem_of_nil. }
  pose proof (cycle_signals w s) as Hc.
  destruct (cycle D read_csv w) as [[[e|] signals] w1]; simpl in *; [done|].
  specialize (IH w1 s).
  destruct (_run D read_csv n w1) as [[r signals'] w2]; simpl in *.
  rewrite elem_of_app. intros [?|?]; auto.
Qed.

Lemma run_unfold (n : nat) (w : World) :
  run D read_csv n w
  = ((_run D read_csv n w).1.2
     ++ match (_run D read_csv n w).1.1 with
        | Some e => [Error e]
        | None => []
        end ++ [Finished],
     (_run D read_csv n w).2).
Proof. unfold run. by destruct (_run D read_csv n w) as [[r signals] w']. Qed.

(** The transport calls of a pass, as [orderly] has it for the client's
    operations. *)
Lemma cycle_calls (w : World) :
  ∃ cs,
    calls (cycle D read_csv w).2 = calls w ++ cs
    ∧ faults (cycle D read_csv w).2 = drop (length cs) (faults w)
    ∧ ∀ k, (k < length cs)%nat → faults w !! k = Some true →
           length cs = S k
           ∧ ∃ e, (cycle D read_csv w).1.1 = Some (FromPiSpec e).
Proof.
  unfold cycle.
  destruct (orderly_pull_log w) as (cs1 & Hc1 & Hf1 & Hstop1).
  destruct (pull_log w) as [[[]|e] w1]; cbn [fst snd app] in *.
  2:{ exists cs1. split_and!; [done..|]. intros k Hk Htrue.
      destruct (Hstop1 k Hk Htrue) as [Hlen _]. split; [done|by exists e]. }
  assert (∀ k, (k < length cs1)%nat → faults w !! k = Some true → False)
    as Hclean1.
  { intros k Hk Htrue. by destruct (Hstop1 k Hk Htrue) as (_ & e & [=]). }
  destruct (read (local w1) log_txt) as [log_text|]; cbn [fst snd app].
  2:{ exists cs1. split_and!; [done..|]. intros k Hk Htrue.
      by destruct (Hclean1 k Hk Htrue). }
  destruct (orderly_sync_so2_data 100 w1) as (cs2 & Hc2 & Hf2 & Hstop2).
  exists (cs1 ++ cs2).
  assert (calls (sync_so2_data 100 w1).2 = calls w ++ cs1 ++ cs2) as Hc
    by (by rewrite Hc2, Hc1, app_assoc).
  assert (faults (sync_so2_data 100 w1).2
          = drop (length (cs1 ++ cs2)) (faults w)) as Hf
    by (by rewrite Hf2, Hf1, drop_drop, length_app).
  assert (∀ k, (k < length (cs1 ++ cs2))%nat → faults w !! k = Some true →
               length (cs1 ++ cs2) = S k
               ∧ ∃ e, (sync_so2_data 100 w1).1 = Raise e) as Hstop.
  { intros k Hk Htrue. rewrite length_app in *.
    destruct (decide (k < length cs1)%nat) as [Hlt|Hge].
    { by destruct (Hclean1 k Hlt Htrue). }
    destruct (Hstop2 (k - length cs1)%nat) as (Hlen & e & He); [lia| |].
    - rewrite Hf1, lookup_drop.
      by replace (length cs1 + (k - length cs1))%nat with k by lia.
    - split; [lia|by exists e]. }
  destruct (sync_so2_data 100 w1) as [[update_flag|e] w2];
    cbn [fst snd app] in *.
  2:{ split_and!; [done..|]. intros k Hk Htrue.
      destruct (Hstop k Hk Htrue) as [Hlen _]. split; [done|by exists e]. }
  assert (∀ k, (k < length (cs1 ++ cs2))%nat →
               faults w !! k = Some true → False) as Hclean.
  { intros k Hk Htrue. by destruct (Hstop k Hk Htrue) as (_ & e & [=]). }
  destruct update_flag; cbn [fst snd app].
  - destruct (read (local w2) so2_output) as [rows|]; cbn [fst snd app].
    + destruct (read_csv rows); cbn [fst snd app]; (split_and!; [done..|]);
        intros k Hk Htrue; by destruct (Hclean k Hk Htrue).
    + split_and!; [done..|].
      intros k Hk Htrue; by destruct (Hclean k Hk Htrue).
  - split_and!; [done..|].
    intros k Hk Htrue; by destruct (Hclean k Hk Htrue).
Qed.

Lemma _run_calls (n : nat) :
  ∀ w : World,
    ∃ cs,
      calls (_run D read_csv n w).2 = calls w ++ cs
      ∧ faults (_run D read_csv n w).2 = drop (length cs) (faults w)
      ∧ ∀ k, (k < length cs)%nat → faults w !! k = Some true →
             length cs = S k
             ∧ ∃ e, (_run D read_csv n w).1.1 = Some (FromPiSpec e).
Proof.
  induction n as [|n IH]; intros w.
  { exists []. simpl. split_and!; [by rewrite app_nil_r|done|].
    intros k Hk. simpl in Hk. lia. }
  simpl. destruct (cycle_calls w) as (cs1 & Hc1 & Hf1 & Hstop1).
  destruct (cycle D read_csv w) as [[[e|] signals] w1]; simpl in *.
  { exists cs1. split_and!; [done..]. }
  destruct (IH w1) as (cs2 & Hc2 & Hf2 & Hstop2).
  destruct (_run D read_csv n w1) as [[r signals'] w2]; simpl in *.
  exists (cs1 ++ cs2). rewrite Hc2, Hc1, Hf2, Hf1, drop_drop, length_app.
  split_and!; [by rewrite app_assoc|done|].
  intros k Hk Htrue.
  destruct (decide (k < length cs1)%nat) as [Hlt|Hge].
  { by destruct (Hstop1 k Hlt Htrue) as (_ & e & [=]). }
  destruct (Hstop2 (k - length cs1)%nat) as (Hlen & e & He); [lia| |].
  - rewrite Hf1, lookup_drop.
    by replace (length cs1 + (k - length cs1))%nat with k by lia.
  - split; [lia|by exists e].
Qed.

(** The first signal of a pass. *)
Lemma cycle_head (w : World) :
  head (cycle D read_csv w).1.2 = Some (UpdateStatus "Working...").
Proof.
  unfold cycle.
  destruct (pull_log w) as [[[]|e] w1]; [|done].
  destruct (read (local w1) log_txt) as [log_text|]; [|done].
  destruct (sync_so2_data 100 w1) as [[[]|e] w2]; [|done..].
  destruct (read (local w2) so2_output) as [rows|]; [|done].
  by destruct (read_csv rows).
Qed.

(** [pull_log] over a working link. *)
Lemma pull_log_ok (w : World) (log_text : list string) :
  default false (head (faults w)) = false →
  read (remote w) log_txt = Some log_text →
  ∃ w1, pull_log w = (Ok tt, w1)
        ∧ remote w1 = remote w
        ∧ faults w1 = tail (faults w)
        ∧ read (local w1) log_txt = Some log_text
        ∧ local_ledger w1 = local_ledger w.
Proof.
  intros Hup Hlog. unfold pull_log, copy_remote_file, dial. rewrite Hup.
  cbn [remote]. rewrite Hlog. eexists. split; [reflexivity|].
  split_and!; [done..| |].
  - simpl. apply lookup_insert_eq.
  - unfold local_ledger. simpl. by apply lookup_insert_ne.
Qed.

(** A pass over a working link that finds nothing new in the ledger. *)
Lemma cycle_steady (w : World) (log_text loc_file rem_file : list string) :
  faults w = [] →
  read (remote w) log_txt = Some log_text →
  remote_ledger w = Some rem_file →
  local_ledger w = Some loc_file →
  (∀ l, l ∈ lines_of (last_lines 100 rem_file) → l ∈ lines_of loc_file) →
  ∃ w', cycle D read_csv w
        = (None,
           [UpdateStatus "Working..."; UpdateLog log_text;
            UpdateStatus "Done"], w')
        ∧ faults w' = [] ∧ remote w' = remote w
        ∧ local_ledger w' = Some loc_file.
Proof.
  intros Hfaults Hlog Hrem Hloc Hseen.
  destruct (pull_log_ok w log_text) as (w1 & Hrun1 & Hr1 & Hf1 & Hlog1 & Hl1);
    [by rewrite Hfaults|done|].
  rewrite Hfaults in Hf1. rewrite Hloc in Hl1.
  destruct (sync_incremental 100 w1 loc_file Hl1)
    as (w2 & Hrun2 & Hl2 & Hr2 & Hf2); [by rewrite Hf1|].
  unfold remote_ledger in Hrun2, Hl2. rewrite Hr1 in Hrun2, Hl2.
  unfold remote_ledger in Hrem. rewrite Hrem in Hrun2, Hl2.
  simpl in Hrun2, Hl2.
  rewrite filter_none in Hrun2, Hl2 by (intros l Hl Hn; by apply Hn, Hseen).
  rewrite app_nil_r in Hl2.
  rewrite bool_decide_false in Hrun2 by (by intros Hn).
  exists w2. unfold cycle. rewrite Hrun1, Hlog1, Hrun2.
  split_and!; [done| |congruence|done].
  by rewrite Hf2, Hf1.
Qed.

Lemma _run_steady (log_text loc_file rem_file : list string) (n : nat) :
  ∀ w : World,
    faults w = [] →
    read (remote w) log_txt = Some log_text →
    remote_ledger w = Some rem_file →
    local_ledger w = Some loc_file →
    (∀ l, l ∈ lines_of (last_lines 100 rem_file) → l ∈ lines_of loc_file) →
    (_run D read_csv n w).1
    = (None,
       concat (replicate n [UpdateStatus "Working..."; UpdateLog log_text;
                            UpdateStatus "Done"])).
Proof.
  induction n as [|n IH]; intros w Hfaults Hlog Hrem Hloc Hseen; [done|].
  destruct (cycle_steady w log_text loc_file rem_file)
    as (w' & Hrun & Hf' & Hr' & Hl'); [done..|].
  cbn [_run]. rewrite Hrun.
  specialize (IH w' Hf').
  unfold remote_ledger in *. rewrite Hr' in IH.
  specialize (IH Hlog Hrem Hl' Hseen).
  destruct (_run D read_csv n w') as [[r signals] w'']. simpl in *.
  by injection IH as -> ->.
Qed.

End WorkerFacts.

(** X22: whatever happens in [_run], [run] emits [finished] exactly once
    and as its last signal, and [error] at most once and then directly
    before it; everything before that are status, log and plot signals,
    the first of them the status Working... whenever the loop is entered
    at all. *)
Theorem worker_finishes_once :
  ∀ (D : Type) (read_csv : list string → SyncWorker.csv D) (n : nat)
    (w : PiSpec.World),
    ∃ body,
      ((SyncWorker.run D read_csv n w).1 = body ++ [SyncWorker.Finished]
       ∨ ∃ e, (SyncWorker.run D read_csv n w).1
              = body ++ [SyncWorker.Error e; SyncWorker.Finished])
      ∧ (∀ s, s ∈ body →
              s ≠ SyncWorker.Finished ∧ ∀ e, s ≠ SyncWorker.Error e)
      ∧ (n ≠ 0%nat →
           head body = Some (SyncWorker.UpdateStatus "Working...")).
Proof.
  intros D read_csv n w. rewrite run_unfold. cbn [fst].
  exists (SyncWorker._run D read_csv n w).1.2. split_and!.
  - destruct (SyncWorker._run D read_csv n w).1.1 as [e|].
    + right. by exists e.
    + by left.
  - apply _run_signals.
  - destruct n as [|n]; [done|]. intros _. cbn [SyncWorker._run].
    pose proof (cycle_head D read_csv w) as Hhead.
    destruct (SyncWorker.cycle D read_csv w) as [[[e|] signals] w1];
      cbn [fst snd] in *; [done|].
    destruct (SyncWorker._run D read_csv n w1) as [[r signals'] w2].
    cbn [fst snd]. by destruct signals.
Qed.

(** X23: the first transport call that fails ends the worker: no call is
    made after it, and the worker emits [error] with the exception of
    the sync client and then [finished], however many passes were still
    to come. *)
Theorem worker_stops_at_first_transport_failure :
  ∀ (D : Type) (read_csv : list string → SyncWorker.csv D) (n : nat)
    (w : PiSpec.World) (k : nat),
    PiSpec.faults w !! k = Some true →
    (k < length (PiSpec.calls (SyncWorker.run D read_csv n w).2)
         - length (PiSpec.calls w))%nat →
    length (PiSpec.calls (SyncWorker.run D read_csv n w).2)
    = (length (PiSpec.calls w) + S k)%nat
    ∧ ∃ e body,
        (SyncWorker.run D read_csv n w).1
        = body ++ [SyncWorker.Error (SyncWorker.FromPiSpec e);
                   SyncWorker.Finished].
Proof.
  intros D read_csv n w k Htrue Hk. rewrite run_unfold in *. cbn [fst snd] in *.
  destruct (_run_calls D read_csv n w) as (cs & Hc & _ & Hstop).
  rewrite Hc, length_app in *.
  destruct (Hstop k) as (Hlen & e & He); [lia|done|].
  split; [lia|]. exists e, (SyncWorker._run D read_csv n w).1.2.
  by rewrite He.
Qed.

Lemma worker_stops_at_first_transport_failure_witness :
  ∃ e body,
    (SyncWorker.run nat count_rows 5 (worker_world [false; true])).1
    = body ++ [SyncWorker.Error (SyncWorker.FromPiSpec e);
               SyncWorker.Finished].
Proof.
  assert (PiSpec.faults (worker_world [false; true]) !! 1%nat = Some true)
    as Htrue by reflexivity.
  assert (1 < length (PiSpec.calls
                        (SyncWorker.run nat count_rows 5
                           (worker_world [false; true])).2)
              - length (PiSpec.calls (worker_world [false; true])))%nat
    as Hk by (vm_compute; lia).
  exact (proj2 (worker_stops_at_first_transport_failure nat count_rows 5
                  (worker_world [false; true]) 1 Htrue Hk)).
Defined.

(** X24: over a working link and with the ledger of the airborne unit
    standing still, a worker that starts without a replica sends the
    plot data once, in its first pass, and in every later pass only the
    statuses and the log: the plots are not redrawn for a ledger that
    has not changed. *)
Theorem worker_plots_once_for_unchanged_ledger :
  ∀ (D : Type) (read_csv : list string → SyncWorker.csv D) (n : nat)
    (w : PiSpec.World) (log_text rem_file : list string) (d : D),
    PiSpec.faults w = [] →
    PiSpec.read (PiSpec.remote w) PiSpec.log_txt = Some log_text →
    PiSpec.remote_ledger w = Some rem_file →
    PiSpec.local_ledger w = None →
    read_csv rem_file = SyncWorker.Parsed d →
    (SyncWorker.run D read_csv (S n) w).1
    = [SyncWorker.UpdateStatus "Working..."; SyncWorker.UpdateLog log_text;
       SyncWorker.UpdatePlots d; SyncWorker.UpdateStatus "Done"]
      ++ concat (replicate n [SyncWorker.UpdateStatus "Working...";
                              SyncWorker.UpdateLog log_text;
                              SyncWorker.UpdateStatus "Done"])
      ++ [SyncWorker.Finished].
Proof.
  intros D read_csv n w log_text rem_file d Hfaults Hlog Hrem Hloc Hcsv.
  destruct (pull_log_ok w log_text) as (w1 & Hrun1 & Hr1 & Hf1 & Hlog1 & Hl1);
    [by rewrite Hfaults|done|].
  rewrite Hfaults in Hf1. rewrite Hloc in Hl1.
  destruct (sync_bootstrap 100 w1 rem_file Hl1)
    as (w2 & Hrun2 & Hl2 & Hr2 & Hf2 & _).
  { by rewrite Hf1. }
  { unfold PiSpec.remote_ledger in *. by rewrite Hr1. }
  rewrite Hf1 in Hf2.
  assert (SyncWorker.cycle D read_csv w
          = (None,
             [SyncWorker.UpdateStatus "Working...";
              SyncWorker.UpdateLog log_text;
              SyncWorker.UpdatePlots d; SyncWorker.UpdateStatus "Done"],
             w2)) as Hfirst.
  { unfold SyncWorker.cycle. rewrite Hrun1, Hlog1, Hrun2.
    unfold PiSpec.local_ledger in Hl2. by rewrite Hl2, Hcsv. }
  rewrite run_unfold. cbn [fst SyncWorker._run]. rewrite Hfirst.
  pose proof (_run_steady D read_csv log_text rem_file rem_file n w2 Hf2)
    as Hrest.
  unfold PiSpec.remote_ledger in *. rewrite Hr2, Hr1 in Hrest.
  specialize (Hrest Hlog Hrem Hl2 (elem_of_lines_of_last 100 rem_file)).
  destruct (SyncWorker._run D read_csv n w2) as [[r signals] w3].
  cbn [fst snd] in *. injection Hrest as -> ->. done.
Qed.

Lemma worker_plots_once_for_unchanged_ledger_witness :
  (SyncWorker.run nat count_rows 3 (worker_world [])).1
  = [SyncWorker.UpdateStatus "Working...";
     SyncWorker.UpdateLog ["12:00:00 - PiSpec ready!"];
     SyncWorker.UpdatePlots 1%nat; SyncWorker.UpdateStatus "Done"]
    ++ concat (replicate 2 [SyncWorker.UpdateStatus "Working...";
                            SyncWorker.UpdateLog ["12:00:00 - PiSpec ready!"];
                            SyncWorker.UpdateStatus "Done"])
    ++ [SyncWorker.Finished].
Proof.
  assert (PiSpec.read (PiSpec.remote (worker_world [])) PiSpec.log_txt
          = Some ["12:00:00 - PiSpec ready!"]) as Hlog by by_evaluation.
  assert (PiSpec.remote_ledger (worker_world []) = Some ["h"; "a"]) as Hrem
    by by_evaluation.
  assert (PiSpec.local_ledger (worker_world []) = None) as Hloc
    by by_evaluation.
  exact (worker_plots_once_for_unchanged_ledger nat count_rows 2
           (worker_world []) ["12:00:00 - PiSpec ready!"] ["h"; "a"] 1%nat
           eq_refl Hlog Hrem Hloc eq_refl).
Defined.
